(** * topoloom: the planarity adapter [tl_planarity.c]

    A shallow embedding of [packages/topoloom/third_party/eaps/tl_planarity.c]
    and the properties of its session, its arc-to-edge map and its extraction
    operations.

    Conventions.
    - A C [int] is a [Z]; the adapter only adds one to counters and computes
      [2m+4] and [6n], whose signed overflow is undefined in C and lies
      outside this model.
    - A C array is a [list]; a pointer that may be [NULL] is an [option].
    - The six file-scope variables of the adapter are the fields of
      [Session]; every operation takes the session and, when it assigns one
      of the variables, returns the new one.
    - The graph library behind [graphLib/graphLib.h] is a collaborator of the
      adapter: its operations and constants are the fields of the class
      [GraphLib], and every definition and theorem below is parametric in
      them.  The C allocator is the other collaborator: an operation that
      allocates takes a [Heap] that says which requests succeed. *)

From Stdlib Require Import ZArith Lia Bool.
From stdpp Require Import base tactics option list numbers sorting.

Local Open Scope Z_scope.

(** ** Outcome of an operation that reads or writes caller memory *)

(** [Done a]: the call returned [a].  [Fault]: the call read or wrote outside
    an array, or through [NULL] (undefined behaviour in C).  [OutOfFuel]: the
    model ran out of fuel while walking an adjacency list. *)
Inductive result (A : Type) : Type :=
| Done (a : A)
| Fault
| OutOfFuel.
Arguments Done {A} a.
Arguments Fault {A}.
Arguments OutOfFuel {A}.

#[export] Instance result_ret : MRet result := fun A a => Done a.
#[export] Instance result_bind : MBind result := fun A B f r =>
  match r with
  | Done a => f a
  | Fault => Fault
  | OutOfFuel => OutOfFuel
  end.

(** ** The collaborators: graph library and allocator *)

Class GraphLib : Type := {
  (** the graph object behind a [graphP] *)
  graph : Type;
  (** status codes *)
  OK : Z;
  NOTOK : Z;
  NONEMBEDDABLE : Z;
  (** bits of [IC.minorType] *)
  MINORTYPE_A : Z;
  MINORTYPE_B : Z;
  MINORTYPE_C : Z;
  MINORTYPE_D : Z;
  MINORTYPE_E : Z;
  MINORTYPE_E1 : Z;
  MINORTYPE_E2 : Z;
  MINORTYPE_E3 : Z;
  MINORTYPE_E4 : Z;
  (** [gp_New()]: [None] is [NULL] *)
  gp_New : option graph;
  (** operations that change the graph return the changed graph with their
      status *)
  gp_EnsureArcCapacity : graph -> Z -> graph * Z;
  gp_InitGraph : graph -> Z -> graph * Z;
  gp_AddEdge : graph -> Z -> Z -> Z -> Z -> graph * Z;
  gp_Embed : graph -> Z -> graph * Z;
  gp_SortVertices : graph -> graph;
  (** queries *)
  gp_EdgeIndexBound : graph -> Z;
  gp_EdgeInUseIndexBound : graph -> Z;
  gp_GetFirstEdge : graph -> Z;
  gp_EdgeInUse : graph -> Z -> bool;
  gp_GetTwinArc : graph -> Z -> Z;
  gp_GetNeighbor : graph -> Z -> Z;
  gp_GetFirstArc : graph -> Z -> Z;
  gp_IsArc : Z -> bool;
  gp_GetNextArc : graph -> Z -> Z;
  gp_VirtualVertexInUse : graph -> Z -> bool;
  IC_minorType : graph -> Z
}.

(** The C allocator as one call of the adapter meets it: does [malloc] of
    that many [int]s, resp. [calloc] of that many bytes, return a block?
    Every call of an operation that allocates takes the heap of its time. *)
Record Heap : Type := mkHeap {
  malloc_ok : Z -> bool;
  calloc_ok : Z -> bool
}.

(** ** Arrays *)

(** [a[i]] of a caller array of [int]s.  The adapter reads [u[e]] and [v[e]]
    for [0 <= e < m] only; outside the list the model reads [0]. *)
Definition int_at (a : list Z) (i : Z) : Z := default 0 (a !! Z.to_nat i).

(** [a[i]] of a [calloc]ed array of flags. *)
Definition flag_at (a : list bool) (i : Z) : bool := default false (a !! Z.to_nat i).

(** [a[i] = x] where the source has checked [0 <= i < length a]. *)
Definition set_at {A} (a : list A) (i : Z) (x : A) : list A := <[Z.to_nat i := x]> a.

(** [buf[i] = x] on a caller buffer: outside the buffer it is a [Fault]. *)
Definition store (buf : list Z) (i : Z) (x : Z) : result (list Z) :=
  if (0 <=? i) && (i <? Z.of_nat (length buf)) then Done (set_at buf i x) else Fault.

(** [p[i]] through a pointer that may be [NULL]. *)
Definition load (p : option (list Z)) (i : Z) : result Z :=
  match p with
  | None => Fault
  | Some a =>
      if (0 <=? i) && (i <? Z.of_nat (length a))
      then Done (int_at a i) else Fault
  end.

(** ** The session *)

Section Adapter.
Context {L : GraphLib}.

Record Session : Type := mkSession {
  g_graph : option graph;
  g_edgeIdByArc : option (list Z);
  g_edgeIdByArcSize : Z;
  g_vertexCount : Z;
  g_edgeCount : Z;
  g_lastEmbedResult : Z
}.

(** The file-scope initialisers: the session before any run. *)
Definition initial_session : Session := mkSession None None 0 0 0 0.

(** [tl_clear_state]: [gp_Free] and [free] release the two blocks, all six
    variables are reset. *)
Definition tl_clear_state (s : Session) : Session :=
  mkSession None None 0 0 0 0.

(** The blocks [tl_clear_state] hands to [gp_Free] and to [free]: those of
    the two pointers that are not [NULL]. *)
Inductive block : Type :=
| GraphBlock (g : graph)
| ArcMapBlock (a : list Z).

Definition released_by_clear (s : Session) : list block :=
  match g_graph s with Some g => [GraphBlock g] | None => [] end ++
  match g_edgeIdByArc s with Some a => [ArcMapBlock a] | None => [] end.

(** [tl_planarity_free] *)
Definition tl_planarity_free (s : Session) : Session := tl_clear_state s.

(** *** [tl_planarity_run] *)

(** [for (i = 0; i < size; i++) g_edgeIdByArc[i] = -1;] with [k] iterations
    left. *)
Fixpoint fill_unmapped (k : nat) (i : Z) (a : list Z) : list Z :=
  match k with
  | O => a
  | S k' => fill_unmapped k' (i + 1) (set_at a i (-1))
  end.

(** The edge insertion loop, [k] iterations left; [false] when an insertion
    did not return [OK]. *)
Fixpoint add_edges (k : nat) (i : Z) (g : graph) (u v : list Z) : graph * bool :=
  match k with
  | O => (g, true)
  | S k' =>
      let '(g', rc) := gp_AddEdge g (int_at u i) 0 (int_at v i) 0 in
      if rc =? OK then add_edges k' (i + 1) g' u v else (g', false)
  end.

(** The inner loop of the matching: scan the edges from [e] on, [k]
    iterations left, for the first one not yet used whose endpoints are
    [uArc] and [vArc] in either order; it is marked used.  Returns [match]
    ([-1] when there is none) and the flags. *)
Fixpoint find_match (k : nat) (e : Z) (edgeUsed : list bool) (u v : list Z)
    (uArc vArc : Z) : Z * list bool :=
  match k with
  | O => (-1, edgeUsed)
  | S k' =>
      if flag_at edgeUsed e then find_match k' (e + 1) edgeUsed u v uArc vArc
      else
        let ue := int_at u e in
        let ve := int_at v e in
        if ((ue =? uArc) && (ve =? vArc)) || ((ue =? vArc) && (ve =? uArc))
        then (e, set_at edgeUsed e true)
        else find_match k' (e + 1) edgeUsed u v uArc vArc
  end.

(** The two guarded assignments after a match. *)
Definition record_match (size : Z) (arc twinArc mtch : Z) (amap : list Z) : list Z :=
  let amap := if (0 <=? arc) && (arc <? size) then set_at amap arc mtch else amap in
  if (0 <=? twinArc) && (twinArc <? size) then set_at amap twinArc mtch else amap.

(** One iteration of the loop over arcs. *)
Definition match_arc (g : graph) (m : Z) (u v : list Z) (size : Z) (arc : Z)
    (st : list bool * list Z) : list bool * list Z :=
  let '(edgeUsed, amap) := st in
  if negb (gp_EdgeInUse g arc) then st
  else
    let twinArc := gp_GetTwinArc g arc in
    if twinArc <? arc then st
    else
      let uArc := gp_GetNeighbor g twinArc in
      let vArc := gp_GetNeighbor g arc in
      let '(mtch, edgeUsed') := find_match (Z.to_nat m) 0 edgeUsed u v uArc vArc in
      if 0 <=? mtch then (edgeUsed', record_match size arc twinArc mtch amap)
      else (edgeUsed', amap).

(** The loop over arcs, from [arc] on with [k] iterations left. *)
Fixpoint match_arcs (k : nat) (arc : Z) (g : graph) (m : Z) (u v : list Z)
    (size : Z) (st : list bool * list Z) : list bool * list Z :=
  match k with
  | O => st
  | S k' => match_arcs k' (arc + 1) g m u v size (match_arc g m u v size arc st)
  end.

(** The matching phase on the graph [g] the edges were inserted into: the
    arc map it leaves. *)
Definition build_arc_map (g : graph) (m : Z) (u v : list Z) (size : Z)
    (amap : list Z) : list Z :=
  let edgeBound := gp_EdgeInUseIndexBound g in
  let first := gp_GetFirstEdge g in
  snd (match_arcs (Z.to_nat (edgeBound - first)) first g m u v size
         (replicate (Z.to_nat m) false, amap)).

Definition tl_planarity_run (h : Heap) (n m : Z) (u v : list Z)
    (embedFlags : Z) (s : Session) : Session * Z :=
  let s0 := tl_clear_state s in
  if n <=? 0 then (s0, NOTOK) else
  if m <? 0 then (s0, NOTOK) else
  match gp_New with
  | None => (mkSession None None 0 n m 0, NOTOK)
  | Some g0 =>
      let requiredArcs := m * 2 + 4 in
      let minArcs := 6 * n in
      let requiredArcs := if requiredArcs <? minArcs then minArcs else requiredArcs in
      let '(g1, rc1) := gp_EnsureArcCapacity g0 requiredArcs in
      if negb (rc1 =? OK) then (mkSession (Some g1) None 0 n m 0, NOTOK) else
      let '(g2, rc2) := gp_InitGraph g1 n in
      if negb (rc2 =? OK) then (mkSession (Some g2) None 0 n m 0, NOTOK) else
      let size := gp_EdgeIndexBound g2 in
      if negb (malloc_ok h size) then (mkSession (Some g2) None size n m 0, NOTOK) else
      let amap := fill_unmapped (Z.to_nat size) 0 (replicate (Z.to_nat size) 0) in
      let '(g3, added) := add_edges (Z.to_nat m) 0 g2 u v in
      if negb added then (mkSession (Some g3) (Some amap) size n m NOTOK, NOTOK) else
      if negb (calloc_ok h m) then (mkSession (Some g3) (Some amap) size n m 0, NOTOK) else
      let amap' := build_arc_map g3 m u v size amap in
      let '(g4, r) := gp_Embed g3 embedFlags in
      let g5 := if (r =? OK) || (r =? NONEMBEDDABLE) then gp_SortVertices g4 else g4 in
      (mkSession (Some g5) (Some amap') size n m r, r)
  end.

(** *** Extraction *)

(** [(arc >= 0 && arc < g_edgeIdByArcSize) ? g_edgeIdByArc[arc] : -1] *)
Definition arc_edge_id (s : Session) (arc : Z) : result Z :=
  if (0 <=? arc) && (arc <? g_edgeIdByArcSize s)
  then load (g_edgeIdByArc s) arc
  else Done (-1).

(** The walk [for (arc = ...; gp_IsArc(arc); arc = gp_GetNextArc(g, arc))]
    of [tl_planarity_rotation_size]. *)
Fixpoint count_arcs (fuel : nat) (g : graph) (arc : Z) (total : Z) : result Z :=
  match fuel with
  | O => OutOfFuel
  | S fuel' =>
      if gp_IsArc arc
      then count_arcs fuel' g (gp_GetNextArc g arc) (total + 1)
      else Done total
  end.

Fixpoint rotation_size_loop (fuel : nat) (g : graph) (k : nat) (v : Z)
    (total : Z) : result Z :=
  match k with
  | O => Done total
  | S k' =>
      total' ← count_arcs fuel g (gp_GetFirstArc g v) total;
      rotation_size_loop fuel g k' (v + 1) total'
  end.

Definition tl_planarity_rotation_size (fuel : nat) (s : Session) : result Z :=
  match g_graph s with
  | None => Done 0
  | Some g =>
      if negb (g_lastEmbedResult s =? OK) then Done 0
      else rotation_size_loop fuel g (Z.to_nat (g_vertexCount s)) 0 0
  end.

(** The caller's buffers [edgeIds] and [neighbors] with the cursor. *)
Record rot_out : Type := mkRot {
  rot_cursor : Z;
  rot_edgeIds : list Z;
  rot_neighbors : list Z
}.

Fixpoint write_arcs (fuel : nat) (s : Session) (g : graph) (arc : Z)
    (o : rot_out) : result rot_out :=
  match fuel with
  | O => OutOfFuel
  | S fuel' =>
      if gp_IsArc arc then
        edgeId ← arc_edge_id s arc;
        edgeIds' ← store (rot_edgeIds o) (rot_cursor o) edgeId;
        neighbors' ← store (rot_neighbors o) (rot_cursor o) (gp_GetNeighbor g arc);
        write_arcs fuel' s g (gp_GetNextArc g arc)
          (mkRot (rot_cursor o + 1) edgeIds' neighbors')
      else Done o
  end.

Fixpoint write_rotation_loop (fuel : nat) (s : Session) (g : graph) (k : nat)
    (v : Z) (offsets : list Z) (o : rot_out) : result (list Z * rot_out) :=
  match k with
  | O => Done (offsets, o)
  | S k' =>
      offsets' ← store offsets v (rot_cursor o);
      o' ← write_arcs fuel s g (gp_GetFirstArc g v) o;
      write_rotation_loop fuel s g k' (v + 1) offsets' o'
  end.

(** [tl_planarity_write_rotation]: the three buffers as it leaves them. *)
Definition tl_planarity_write_rotation (fuel : nat) (s : Session)
    (offsets edgeIds neighbors : list Z) : result (list Z * list Z * list Z) :=
  match g_graph s with
  | None => Done (offsets, edgeIds, neighbors)
  | Some g =>
      if negb (g_lastEmbedResult s =? OK) then Done (offsets, edgeIds, neighbors)
      else
        '(offsets', o) ← write_rotation_loop fuel s g
             (Z.to_nat (g_vertexCount s)) 0 offsets (mkRot 0 edgeIds neighbors);
        offsets'' ← store offsets' (g_vertexCount s) (rot_cursor o);
        Done (offsets'', rot_edgeIds o, rot_neighbors o)
  end.

(** The test [edgeId >= 0 && edgeId < g_edgeCount && !seen[edgeId]]. *)
Definition fresh_edge (s : Session) (seen : list bool) (edgeId : Z) : bool :=
  (0 <=? edgeId) && (edgeId <? g_edgeCount s) && negb (flag_at seen edgeId).

Definition count_witness_arc (s : Session) (g : graph) (arc : Z)
    (st : list bool * Z) : result (list bool * Z) :=
  let '(seen, count) := st in
  if negb (gp_EdgeInUse g arc) then Done st
  else
    edgeId ← arc_edge_id s arc;
    if fresh_edge s seen edgeId
    then Done (set_at seen edgeId true, count + 1)
    else Done st.

Fixpoint count_witness_arcs (k : nat) (arc : Z) (s : Session) (g : graph)
    (st : list bool * Z) : result (list bool * Z) :=
  match k with
  | O => Done st
  | S k' =>
      st' ← count_witness_arc s g arc st;
      count_witness_arcs k' (arc + 1) s g st'
  end.

Definition tl_planarity_witness_edge_count (h : Heap) (s : Session) : result Z :=
  match g_graph s with
  | None => Done 0
  | Some g =>
      if negb (g_lastEmbedResult s =? NONEMBEDDABLE) then Done 0
      else if negb (calloc_ok h (g_edgeCount s)) then Done 0
      else
        let edgeBound := gp_EdgeInUseIndexBound g in
        let first := gp_GetFirstEdge g in
        st ← count_witness_arcs (Z.to_nat (edgeBound - first)) first s g
               (replicate (Z.to_nat (g_edgeCount s)) false, 0);
        Done (snd st)
  end.

Definition write_witness_arc (s : Session) (g : graph) (arc : Z)
    (st : list bool * Z * list Z) : result (list bool * Z * list Z) :=
  let '(seen, cursor, edgeIds) := st in
  if negb (gp_EdgeInUse g arc) then Done st
  else
    edgeId ← arc_edge_id s arc;
    if fresh_edge s seen edgeId
    then
      edgeIds' ← store edgeIds cursor edgeId;
      Done (set_at seen edgeId true, cursor + 1, edgeIds')
    else Done st.

Fixpoint write_witness_arcs (k : nat) (arc : Z) (s : Session) (g : graph)
    (st : list bool * Z * list Z) : result (list bool * Z * list Z) :=
  match k with
  | O => Done st
  | S k' =>
      st' ← write_witness_arc s g arc st;
      write_witness_arcs k' (arc + 1) s g st'
  end.

Definition tl_planarity_write_witness_edges (h : Heap) (s : Session)
    (edgeIds : list Z) : result (list Z) :=
  match g_graph s with
  | None => Done edgeIds
  | Some g =>
      if negb (g_lastEmbedResult s =? NONEMBEDDABLE) then Done edgeIds
      else if negb (calloc_ok h (g_edgeCount s)) then Done edgeIds
      else
        let edgeBound := gp_EdgeInUseIndexBound g in
        let first := gp_GetFirstEdge g in
        st ← write_witness_arcs (Z.to_nat (edgeBound - first)) first s g
               (replicate (Z.to_nat (g_edgeCount s)) false, 0, edgeIds);
        Done (snd st)
  end.

Fixpoint count_witness_vertices (k : nat) (v : Z) (g : graph) (count : Z) : Z :=
  match k with
  | O => count
  | S k' =>
      count_witness_vertices k' (v + 1) g
        (if gp_VirtualVertexInUse g v then count + 1 else count)
  end.

Definition tl_planarity_witness_vertex_count (s : Session) : Z :=
  match g_graph s with
  | None => 0
  | Some g =>
      if negb (g_lastEmbedResult s =? NONEMBEDDABLE) then 0
      else count_witness_vertices (Z.to_nat (g_vertexCount s)) 0 g 0
  end.

Fixpoint write_witness_vertices_loop (k : nat) (v : Z) (g : graph)
    (st : Z * list Z) : result (Z * list Z) :=
  match k with
  | O => Done st
  | S k' =>
      if gp_VirtualVertexInUse g v then
        vertexIds' ← store (snd st) (fst st) v;
        write_witness_vertices_loop k' (v + 1) g (fst st + 1, vertexIds')
      else write_witness_vertices_loop k' (v + 1) g st
  end.

Definition tl_planarity_write_witness_vertices (s : Session)
    (vertexIds : list Z) : result (list Z) :=
  match g_graph s with
  | None => Done vertexIds
  | Some g =>
      if negb (g_lastEmbedResult s =? NONEMBEDDABLE) then Done vertexIds
      else
        st ← write_witness_vertices_loop (Z.to_nat (g_vertexCount s)) 0 g
               (0, vertexIds);
        Done (snd st)
  end.

Definition k33Mask : Z :=
  Z.lor (Z.lor (Z.lor (Z.lor (Z.lor (Z.lor (Z.lor
    MINORTYPE_A MINORTYPE_B) MINORTYPE_C) MINORTYPE_D)
    MINORTYPE_E1) MINORTYPE_E2) MINORTYPE_E3) MINORTYPE_E4.

Definition tl_planarity_witness_type (s : Session) : Z :=
  match g_graph s with
  | None => 0
  | Some g =>
      if negb (g_lastEmbedResult s =? NONEMBEDDABLE) then 0
      else
        let minorType := IC_minorType g in
        if negb (Z.land minorType k33Mask =? 0) then 33
        else if negb (Z.land minorType MINORTYPE_E =? 0) then 5
        else 0
  end.

(** *** Sessions a caller can be in *)

(** The session is reached from the initial one by calls of
    [tl_planarity_run] and [tl_planarity_free]; the extraction operations
    assign none of the six variables. *)
Inductive reachable : Session -> Prop :=
| reach_init : reachable initial_session
| reach_run h n m u v embedFlags s :
    reachable s -> reachable (fst (tl_planarity_run h n m u v embedFlags s))
| reach_free s :
    reachable s -> reachable (tl_planarity_free s).

End Adapter.

(** ** A list-based graph store

    An instance of [GraphLib] to run the adapter on: arcs are the indices of
    two arrays ([lg_next], [lg_nbr]), the twin of an arc is the arc with the
    lowest bit flipped, an edge takes the next two free arcs and is linked at
    the head of both endpoints' adjacency lists.  Whether [gp_New] finds
    memory and what the decision procedure answers are given by a
    [script]. *)

Module ListGraph.

Record lgraph : Type := mkLG {
  lg_N : Z;
  lg_cap : Z;
  lg_M : Z;
  lg_first : list Z;
  lg_next : list Z;
  lg_nbr : list Z;
  lg_virtual : list bool;
  lg_minor : Z
}.

Definition NIL : Z := -1.

Record script : Type := mkScript {
  sc_new_ok : bool;
  sc_embed : lgraph -> Z -> lgraph * Z
}.

Definition lg_empty : lgraph := mkLG 0 0 0 [] [] [] [] 0.

Definition ensure_capacity (g : lgraph) (k : Z) : lgraph * Z :=
  if k <? 0 then (g, 0)
  else (mkLG (lg_N g) (k + k mod 2) (lg_M g) (lg_first g) (lg_next g)
          (lg_nbr g) (lg_virtual g) (lg_minor g), 1).

Definition init_graph (g : lgraph) (n : Z) : lgraph * Z :=
  if n <=? 0 then (g, 0)
  else (mkLG n (lg_cap g) 0
          (replicate (Z.to_nat n) NIL)
          (replicate (Z.to_nat (lg_cap g)) NIL)
          (replicate (Z.to_nat (lg_cap g)) NIL)
          (replicate (Z.to_nat n) false) 0, 1).

Definition in_range (g : lgraph) (x : Z) : bool := (0 <=? x) && (x <? lg_N g).

Definition add_edge (g : lgraph) (u ulink v vlink : Z) : lgraph * Z :=
  if negb (in_range g u && in_range g v) then (g, 0)
  else if lg_cap g <? 2 * lg_M g + 2 then (g, 0)
  else
    let a := 2 * lg_M g in
    let t := a + 1 in
    let nxt := set_at (lg_next g) a (int_at (lg_first g) u) in
    let fst1 := set_at (lg_first g) u a in
    let nxt := set_at nxt t (int_at fst1 v) in
    let fst2 := set_at fst1 v t in
    let nbr := set_at (set_at (lg_nbr g) a v) t u in
    (mkLG (lg_N g) (lg_cap g) (lg_M g + 1) fst2 nxt nbr
       (lg_virtual g) (lg_minor g), 1).

Definition lib (sc : script) : GraphLib := {|
  graph := lgraph;
  OK := 1;
  NOTOK := 0;
  NONEMBEDDABLE := -1;
  MINORTYPE_A := 1;
  MINORTYPE_B := 2;
  MINORTYPE_C := 4;
  MINORTYPE_D := 8;
  MINORTYPE_E := 16;
  MINORTYPE_E1 := 32;
  MINORTYPE_E2 := 64;
  MINORTYPE_E3 := 128;
  MINORTYPE_E4 := 256;
  gp_New := if sc_new_ok sc then Some lg_empty else None;
  gp_EnsureArcCapacity := ensure_capacity;
  gp_InitGraph := init_graph;
  gp_AddEdge := add_edge;
  gp_Embed := sc_embed sc;
  gp_SortVertices := fun g => g;
  gp_EdgeIndexBound := lg_cap;
  gp_EdgeInUseIndexBound := fun g => 2 * lg_M g;
  gp_GetFirstEdge := fun _ => 0;
  gp_EdgeInUse := fun g a =>
    (0 <=? a) && (a <? Z.of_nat (length (lg_nbr g))) && (0 <=? int_at (lg_nbr g) a);
  gp_GetTwinArc := fun _ a => Z.lxor a 1;
  gp_GetNeighbor := fun g a => int_at (lg_nbr g) a;
  gp_GetFirstArc := fun g x => int_at (lg_first g) x;
  gp_IsArc := fun a => negb (a =? NIL);
  gp_GetNextArc := fun g a => int_at (lg_next g) a;
  gp_VirtualVertexInUse := fun g x => flag_at (lg_virtual g) x;
  IC_minorType := lg_minor
|}.

(** A decision procedure that accepts the graph as it is. *)
Definition accept (g : lgraph) (flags : Z) : lgraph * Z := (g, 1).

(** A decision procedure that rejects the graph as it is, with minor type
    [minor] and the vertices of [marks] flagged. *)
Definition reject (minor : Z) (marks : list bool) (g : lgraph) (flags : Z)
    : lgraph * Z :=
  (mkLG (lg_N g) (lg_cap g) (lg_M g) (lg_first g) (lg_next g) (lg_nbr g)
     marks minor, -1).

(** A decision procedure that reports an internal error. *)
Definition internal_error (g : lgraph) (flags : Z) : lgraph * Z := (g, 0).
Definition erring : GraphLib := lib (mkScript true internal_error).

Definition accepting : GraphLib := lib (mkScript true accept).
Definition rejecting (minor : Z) (marks : list bool) : GraphLib :=
  lib (mkScript true (reject minor marks)).
Definition out_of_memory : GraphLib := lib (mkScript false accept).

(** A heap that serves every request, and one that serves none. *)
Definition plenty : Heap := mkHeap (fun _ => true) (fun _ => true).
Definition exhausted : Heap := mkHeap (fun _ => false) (fun _ => false).

End ListGraph.

(** ** Sessions of the list-based store *)

Module Scenarios.
Import ListGraph.

(** The triangle 0-1, 1-2, 2-0, accepted. *)
Definition triangle_run : @Session accepting * Z :=
  tl_planarity_run plenty 3 3 [0; 1; 2] [1; 2; 0] 0 initial_session.
Definition triangle : @Session accepting := fst triangle_run.

(** The triangle as the edges were inserted, before the decision. *)
Definition triangle_graph : lgraph :=
  fst (@add_edges accepting 3 0
         (fst (init_graph (fst (ensure_capacity lg_empty 18)) 3))
         [0; 1; 2] [1; 2; 0]).

(** The adjacency lists of the triangle in the list-based store. *)
Definition triangle_adj (x : Z) : list Z :=
  if x =? 0 then [5; 0] else if x =? 1 then [2; 1] else if x =? 2 then [4; 3]
  else [].

(** The complete graph on five vertices, rejected with the minor type
    [MINORTYPE_E] and every vertex flagged. *)
Definition k5_lib : GraphLib := rejecting 16 [true; true; true; true; true].
Definition k5 : @Session k5_lib :=
  fst (tl_planarity_run plenty 5 10
         [0; 0; 0; 0; 1; 1; 1; 2; 2; 3] [1; 2; 3; 4; 2; 3; 4; 3; 4; 4] 0
         initial_session).

(** One edge with an endpoint that is no vertex. *)
Definition bad_endpoint_run : @Session accepting * Z :=
  tl_planarity_run plenty 2 1 [0] [7] 0 initial_session.

Definition zeros (k : nat) : list Z := replicate k 0.

End Scenarios.

(** ** Notions the properties are stated with *)

(** The handles [i, i+1, ..., i+k-1] a counting loop visits. *)
Fixpoint zrange (k : nat) (i : Z) : list Z :=
  match k with
  | O => []
  | S k' => i :: zrange k' (i + 1)
  end.

(** Some bit is set in both [x] and [c]. *)
Definition bit_present (x c : Z) : Prop :=
  exists i, Z.testbit x i = true /\ Z.testbit c i = true.

(** The identities of [l], each kept where it occurs first. *)
Fixpoint first_occurrences (l : list Z) : list Z :=
  match l with
  | [] => []
  | x :: l' => x :: filter (fun y => y <> x) (first_occurrences l')
  end.

(** How many of the flags are set. *)
Definition flags_on (seen : list bool) : nat :=
  length (filter (fun b : bool => b = true) seen).

(** What a scan emits of [l] when it starts with the flags [seen]. *)
Definition emitting (seen : list bool) (l : list Z) : list Z :=
  filter (fun e => flag_at seen e = false) (first_occurrences l).

(** Edge [e] of the input joins [a] and [b], in either order. *)
Definition endpoints_match (u v : list Z) (e a b : Z) : Prop :=
  (int_at u e = a /\ int_at v e = b) \/ (int_at u e = b /\ int_at v e = a).

(** The guarded lookup in an arc map of [size] cells. *)
Definition map_lookup (size : Z) (amap : list Z) (arc : Z) : Z :=
  if (0 <=? arc) && (arc <? size) then int_at amap arc else -1.

(** The incidences of the vertices below [j], in rising vertex order, when
    [adj x] lists those of vertex [x]. *)
Definition rotation_prefix (adj : Z -> list Z) (j : nat) : list Z :=
  concat (map adj (zrange j 0)).

(** Where the incidences of vertex [j] start: how many the vertices below it
    have. *)
Definition offset_at (adj : Z -> list Z) (j : nat) : Z :=
  Z.of_nat (length (rotation_prefix adj j)).

(** The neighbours the input gives vertex [x]: for every edge in input order
    its other endpoint, a loop counting twice. *)
Definition input_neighbors (m : Z) (u v : list Z) (x : Z) : list Z :=
  flat_map (fun e =>
      (if decide (int_at u e = x) then [int_at v e] else []) ++
      (if decide (int_at v e = x) then [int_at u e] else []))
    (zrange (Z.to_nat m) 0).

Section Notions.
Context {L : GraphLib}.

(** A bit of the K3,3 family (A, B, C, D, E1, E2, E3, E4) is set in [x]. *)
Definition k33_family_present (x : Z) : Prop :=
  bit_present x MINORTYPE_A \/ bit_present x MINORTYPE_B \/
  bit_present x MINORTYPE_C \/ bit_present x MINORTYPE_D \/
  bit_present x MINORTYPE_E1 \/ bit_present x MINORTYPE_E2 \/
  bit_present x MINORTYPE_E3 \/ bit_present x MINORTYPE_E4.

(** The arc map is allocated with as many cells as the session records. *)
Definition map_allocated (s : Session) : Prop :=
  exists amap, g_edgeIdByArc s = Some amap /\
               length amap = Z.to_nat (g_edgeIdByArcSize s).

(** The guarded lookup as a value: what [arc_edge_id] returns on an
    allocated map. *)
Definition edge_id_of (s : Session) (arc : Z) : Z :=
  if (0 <=? arc) && (arc <? g_edgeIdByArcSize s)
  then int_at (default [] (g_edgeIdByArc s)) arc
  else -1.

(** [l] is the adjacency list the walk from [arc] visits. *)
Inductive arc_chain (g : graph) : Z -> list Z -> Prop :=
| chain_end arc : gp_IsArc arc = false -> arc_chain g arc []
| chain_step arc l :
    gp_IsArc arc = true ->
    arc_chain g (gp_GetNextArc g arc) l ->
    arc_chain g arc (arc :: l).

(** The in-use arcs in visiting order. *)
Definition arcs_in_use (g : graph) : list Z :=
  filter (fun arc => gp_EdgeInUse g arc = true)
    (zrange (Z.to_nat (gp_EdgeInUseIndexBound g - gp_GetFirstEdge g))
       (gp_GetFirstEdge g)).

(** The edge identities in [[0, m)] that the in-use arcs map to, in visiting
    order, with repetitions. *)
Definition mapped_edge_ids (s : Session) (g : graph) : list Z :=
  filter (fun e => 0 <= e < g_edgeCount s) (map (edge_id_of s) (arcs_in_use g)).

(** The witness edges: each of them once, where it is met first. *)
Definition witness_edge_ids (s : Session) (g : graph) : list Z :=
  first_occurrences (mapped_edge_ids s g).

(** The identities in [[0, m)] met by a scan of [k] handles from [arc]. *)
Definition scan_ids (s : Session) (g : graph) (k : nat) (arc : Z) : list Z :=
  filter (fun e => 0 <= e < g_edgeCount s)
    (map (edge_id_of s) (filter (fun a => gp_EdgeInUse g a = true) (zrange k arc))).

(** An arc the matching visits: in use, and its twin's handle is not
    smaller. *)
Definition canonical (g : graph) (arc : Z) : Prop :=
  gp_EdgeInUse g arc = true /\ arc <= gp_GetTwinArc g arc.

(** Input edge [e] joins the two endpoints of [arc]. *)
Definition arc_matches (g : graph) (u v : list Z) (arc e : Z) : Prop :=
  endpoints_match u v e (gp_GetNeighbor g (gp_GetTwinArc g arc))
    (gp_GetNeighbor g arc).

(** Edge [e] is recorded for an arc the matching visited before [arc]. *)
Definition claimed_before (g : graph) (size : Z) (amap : list Z) (arc e : Z)
    : Prop :=
  exists c, gp_GetFirstEdge g <= c < arc /\ canonical g c /\
            map_lookup size amap c = e.

(** [e] is what first-match-wins assigns to [arc]: the first edge of the
    input, in input order, that joins the endpoints of [arc] and is not
    claimed before [arc]; the sentinel [-1] when every such edge is
    claimed. *)
Definition first_unclaimed_match (g : graph) (m : Z) (u v : list Z) (size : Z)
    (amap : list Z) (arc e : Z) : Prop :=
  (e = -1 /\
   forall e', 0 <= e' < m -> arc_matches g u v arc e' ->
     claimed_before g size amap arc e') \/
  (0 <= e < m /\ arc_matches g u v arc e /\
   ~ claimed_before g size amap arc e /\
   forall e', 0 <= e' < e -> arc_matches g u v arc e' ->
     claimed_before g size amap arc e').

(** What holds of the flags [edgeUsed] and of the arc map when the matching
    has visited the arcs below [cur]. *)
Definition matching_inv (g : graph) (m : Z) (u v : list Z) (size : Z)
    (cur : Z) (edgeUsed : list bool) (amap : list Z) : Prop :=
  length edgeUsed = Z.to_nat m /\
  length amap = Z.to_nat size /\
  (forall x, map_lookup size amap x = map_lookup size amap (gp_GetTwinArc g x)) /\
  (forall x, map_lookup size amap x <> -1 ->
     0 <= map_lookup size amap x < m /\
     flag_at edgeUsed (map_lookup size amap x) = true /\
     exists c, gp_GetFirstEdge g <= c < cur /\ canonical g c /\
               (x = c \/ x = gp_GetTwinArc g c)) /\
  (forall e, 0 <= e < m -> flag_at edgeUsed e = true ->
     claimed_before g size amap cur e) /\
  (forall x y, map_lookup size amap x <> -1 ->
     map_lookup size amap y = map_lookup size amap x ->
     y = x \/ y = gp_GetTwinArc g x) /\
  (forall a, gp_GetFirstEdge g <= a < cur -> canonical g a ->
     first_unclaimed_match g m u v size amap a (map_lookup size amap a)).

(** Modelled from the spec: the decision procedure [gp_Embed] and the edge
    insertion [gp_AddEdge] of graphLib are not part of the adapter.  The spec
    says of them that after a run that reaches success-with-embedding, for
    every vertex the neighbours listed in its rotation slice are exactly its
    graph neighbours, as multisets, and that the order of the slice is the
    one the decision procedure fixed.  Here [adj x] is the adjacency list of
    vertex [x] in the embedded graph [g]. *)
Definition embedding_contract (g : graph) (n m : Z) (u v : list Z)
    (adj : Z -> list Z) : Prop :=
  forall x, 0 <= x < n ->
    arc_chain g (gp_GetFirstArc g x) (adj x) /\
    map (gp_GetNeighbor g) (adj x) ≡ₚ input_neighbors m u v x.

(** The vertices in [[0, n)] flagged as virtual, in rising order. *)
Definition virtual_vertices (g : graph) (n : Z) : list Z :=
  filter (fun x => gp_VirtualVertexInUse g x = true) (zrange (Z.to_nat n) 0).

End Notions.

(** ** Arrays and loops *)

(** Decide the integer comparisons of the goal. *)
Ltac zcases :=
  repeat match goal with
  | |- context [?a <=? ?b] => destruct (Z.leb_spec a b)
  | |- context [?a <? ?b] => destruct (Z.ltb_spec a b)
  | |- context [?a =? ?b] => destruct (Z.eqb_spec a b)
  end; simpl; try (reflexivity || lia).

Lemma int_at_set_at (a : list Z) (i j x : Z) :
  0 <= i < Z.of_nat (length a) -> 0 <= j ->
  int_at (set_at a i x) j = if decide (j = i) then x else int_at a j.
Proof.
  intros Hi Hj. unfold int_at, set_at.
  destruct (decide (j = i)) as [->|Hne].
  - rewrite list_lookup_insert_eq by lia. reflexivity.
  - rewrite list_lookup_insert_ne by lia. reflexivity.
Qed.

Lemma flag_at_set_at (a : list bool) (i j : Z) (b : bool) :
  0 <= i < Z.of_nat (length a) -> 0 <= j ->
  flag_at (set_at a i b) j = if decide (j = i) then b else flag_at a j.
Proof.
  intros Hi Hj. unfold flag_at, set_at.
  destruct (decide (j = i)) as [->|Hne].
  - rewrite list_lookup_insert_eq by lia. reflexivity.
  - rewrite list_lookup_insert_ne by lia. reflexivity.
Qed.

Lemma length_set_at {A} (a : list A) (i : Z) (x : A) :
  length (set_at a i x) = length a.
Proof. apply length_insert. Qed.

Lemma flag_at_replicate (k : nat) (i : Z) : flag_at (replicate k false) i = false.
Proof.
  unfold flag_at. destruct (replicate k false !! Z.to_nat i) as [b|] eqn:E; [|reflexivity].
  apply lookup_replicate in E as [-> _]. reflexivity.
Qed.

Lemma elem_of_zrange (k : nat) (i x : Z) :
  x ∈ zrange k i <-> i <= x < i + Z.of_nat k.
Proof.
  revert i. induction k as [|k IH]; intros i; simpl.
  - rewrite elem_of_nil. lia.
  - rewrite elem_of_cons, IH. lia.
Qed.

Lemma zrange_snoc (k : nat) (i : Z) :
  zrange (S k) i = zrange k i ++ [i + Z.of_nat k].
Proof.
  revert i. induction k as [|k IH]; intros i.
  - simpl. f_equal. lia.
  - change (zrange (S (S k)) i) with (i :: zrange (S k) (i + 1)).
    rewrite IH. simpl. do 3 f_equal. lia.
Qed.

Lemma length_zrange (k : nat) (i : Z) : length (zrange k i) = k.
Proof. revert i. induction k; intros; simpl; auto. Qed.

(** Storing the list [ys] cell by cell from the cursor on overwrites a
    prefix of what is left of the buffer. *)
Lemma store_next (done rest : list Z) (x : Z) :
  rest <> [] ->
  store (done ++ rest) (Z.of_nat (length done)) x
  = Done ((done ++ [x]) ++ drop 1 rest).
Proof.
  intros Hrest. destruct rest as [|r rest]; [congruence|].
  unfold store, set_at. rewrite length_app. simpl.
  destruct (Z.leb_spec 0 (Z.of_nat (length done))); [|lia].
  destruct (Z.ltb_spec (Z.of_nat (length done))
              (Z.of_nat (length done + S (length rest)))); [|lia].
  simpl.
  rewrite Nat2Z.id. f_equal.
  rewrite insert_app_r_alt by lia. rewrite Nat.sub_diag. simpl.
  rewrite drop_0. rewrite <- app_assoc. reflexivity.
Qed.

(** ** The loops of a run keep the length of the arc map *)

Section Lengths.
Context {L : GraphLib}.

Lemma length_fill_unmapped (k : nat) (i : Z) (a : list Z) :
  length (fill_unmapped k i a) = length a.
Proof.
  revert i a. induction k as [|k IH]; intros i a; simpl; [reflexivity|].
  rewrite IH. apply length_set_at.
Qed.

Lemma length_record_match (size a t e : Z) (amap : list Z) :
  length (record_match size a t e amap) = length amap.
Proof.
  unfold record_match.
  repeat (destruct (_ && _)); rewrite ?length_set_at; reflexivity.
Qed.

Lemma length_match_arcs (k : nat) (arc : Z) (g : graph) (m : Z) (u v : list Z)
    (size : Z) (st : list bool * list Z) :
  length (snd (match_arcs k arc g m u v size st)) = length (snd st).
Proof.
  revert arc st. induction k as [|k IH]; intros arc st; simpl; [reflexivity|].
  rewrite IH. unfold match_arc. destruct st as [used amap].
  destruct (negb (gp_EdgeInUse g arc)); [reflexivity|].
  destruct (_ <? arc); [reflexivity|].
  destruct (find_match _ _ _ _ _ _ _) as [mt used'].
  destruct (0 <=? mt); simpl; [apply length_record_match|reflexivity].
Qed.

Lemma length_build_arc_map (g : graph) (m : Z) (u v : list Z) (size : Z)
    (amap : list Z) :
  length (build_arc_map g m u v size amap) = length amap.
Proof. unfold build_arc_map. rewrite length_match_arcs. reflexivity. Qed.

End Lengths.

(** ** The session life cycle *)

Section Lifecycle.
Context {L : GraphLib}.

Lemma clear_state_initial (s : Session) : tl_clear_state s = initial_session.
Proof. reflexivity. Qed.

(** C9.  [tl_planarity_free] is total, it always leaves the cleared session
    (the one before any run), and so calling it twice, or before any run,
    leaves the same session as calling it once on a fresh one; a second
    call, or a call before any run, releases no block (nothing is freed
    twice, and [NULL] is never freed). *)
Theorem free_idempotent (s : Session) :
  tl_planarity_free (tl_planarity_free s) = tl_planarity_free s /\
  tl_planarity_free s = tl_planarity_free initial_session /\
  tl_planarity_free initial_session = initial_session /\
  released_by_clear (tl_planarity_free s) = [] /\
  released_by_clear initial_session = [].
Proof. repeat split. Qed.

(** In a session a caller can reach, a recorded outcome other than [0] comes
    with a graph and with an arc map of the recorded size. *)
Lemma run_outcome_allocated h n m u v embedFlags (s : Session) :
  let s' := fst (tl_planarity_run h n m u v embedFlags s) in
  g_lastEmbedResult s' <> 0 ->
  g_graph s' <> None /\ map_allocated s'.
Proof.
  unfold tl_planarity_run, map_allocated.
  destruct (n <=? 0); [simpl; congruence|].
  destruct (m <? 0); [simpl; congruence|].
  destruct gp_New as [g0|]; [|simpl; congruence].
  destruct (gp_EnsureArcCapacity g0 _) as [g1 rc1].
  destruct (negb (rc1 =? OK)); [simpl; congruence|].
  destruct (gp_InitGraph g1 n) as [g2 rc2].
  destruct (negb (rc2 =? OK)); [simpl; congruence|].
  destruct (negb (malloc_ok h _)); [simpl; congruence|].
  destruct (add_edges _ 0 g2 u v) as [g3 added].
  destruct (negb added).
  { simpl. intros _. split; [congruence|]. eexists; split; [reflexivity|].
    rewrite length_fill_unmapped. apply length_replicate. }
  destruct (negb (calloc_ok h m)); [simpl; congruence|].
  destruct (gp_Embed g3 embedFlags) as [g4 r]. simpl.
  intros _. split; [congruence|]. eexists; split; [reflexivity|].
  rewrite length_build_arc_map, length_fill_unmapped. apply length_replicate.
Qed.

Lemma reachable_outcome_allocated (s : Session) :
  reachable s ->
  g_lastEmbedResult s <> 0 ->
  g_graph s <> None /\ map_allocated s.
Proof.
  intros Hr. destruct Hr as [|h n m u v fl s _|s _].
  - simpl. congruence.
  - apply run_outcome_allocated.
  - simpl. congruence.
Qed.

End Lifecycle.

(** ** The gates of the extraction operations *)

Section Gates.
Context {L : GraphLib}.

(** C1.  Unless the session holds a graph and the recorded outcome is [OK],
    [tl_planarity_rotation_size] returns 0 and
    [tl_planarity_write_rotation] returns with the three buffers as they
    were; unless it holds a graph and the recorded outcome is
    [NONEMBEDDABLE], the three witness queries return 0 and the two witness
    writers return with the buffer as it was.  Before any run the session
    holds no graph.  None of the calls faults. *)
Theorem extraction_gated (fuel : nat) (h : Heap) (s : Session)
    (offsets edgeIds neighbors buf : list Z) :
  (g_lastEmbedResult s <> OK \/ g_graph s = None ->
     tl_planarity_rotation_size fuel s = Done 0 /\
     tl_planarity_write_rotation fuel s offsets edgeIds neighbors
       = Done (offsets, edgeIds, neighbors)) /\
  (g_lastEmbedResult s <> NONEMBEDDABLE \/ g_graph s = None ->
     tl_planarity_witness_edge_count h s = Done 0 /\
     tl_planarity_witness_vertex_count s = 0 /\
     tl_planarity_witness_type s = 0 /\
     tl_planarity_write_witness_edges h s buf = Done buf /\
     tl_planarity_write_witness_vertices s buf = Done buf) /\
  g_graph initial_session = None.
Proof.
  unfold tl_planarity_rotation_size, tl_planarity_write_rotation,
    tl_planarity_witness_edge_count, tl_planarity_witness_vertex_count,
    tl_planarity_witness_type, tl_planarity_write_witness_edges,
    tl_planarity_write_witness_vertices.
  split; [|split; [|reflexivity]].
  - intros [Hne|Hnone].
    + destruct (g_graph s); [|auto].
      destruct (Z.eqb_spec (g_lastEmbedResult s) OK); [contradiction|auto].
    + rewrite Hnone. auto.
  - intros [Hne|Hnone].
    + destruct (g_graph s); [|auto 6].
      destruct (Z.eqb_spec (g_lastEmbedResult s) NONEMBEDDABLE);
        [contradiction|simpl; auto 6].
    + rewrite Hnone. auto 6.
Qed.

End Gates.

(** ** The witness classification *)

Lemma nonzero_has_bit (x : Z) : x <> 0 -> exists i, Z.testbit x i = true.
Proof.
  intros Hx. destruct (Z.lt_trichotomy x 0) as [Hneg|[->|Hpos]]; [|congruence|].
  - exists (Z.succ (Z.log2 (Z.pred (- x)))).
    apply Z.bits_above_log2_neg; lia.
  - exists (Z.log2 x). apply Z.bit_log2; lia.
Qed.

Lemma land_nonzero_iff (x c : Z) : Z.land x c <> 0 <-> bit_present x c.
Proof.
  split.
  - intros H. apply nonzero_has_bit in H as [i Hi].
    rewrite Z.land_spec in Hi. apply andb_true_iff in Hi. exists i. exact Hi.
  - intros (i & Hx & Hc) H0.
    assert (Z.testbit (Z.land x c) i = true) as Hi
      by (rewrite Z.land_spec, Hx, Hc; reflexivity).
    rewrite H0, Z.bits_0 in Hi. discriminate.
Qed.

Lemma bit_present_lor (x a b : Z) :
  bit_present x (Z.lor a b) <-> bit_present x a \/ bit_present x b.
Proof.
  unfold bit_present. split.
  - intros (i & Hx & Hab). rewrite Z.lor_spec in Hab.
    apply orb_true_iff in Hab as [Ha|Hb]; [left|right]; eauto.
  - intros [(i & Hx & Ha)|(i & Hx & Hb)]; exists i; rewrite Z.lor_spec;
      split; auto; apply orb_true_iff; auto.
Qed.

Section Classification.
Context {L : GraphLib}.

Lemma k33Mask_present (x : Z) :
  Z.land x k33Mask <> 0 <-> k33_family_present x.
Proof.
  rewrite land_nonzero_iff. unfold k33Mask, k33_family_present.
  rewrite !bit_present_lor. tauto.
Qed.

(** C5.  [tl_planarity_witness_type] returns 0, 5 or 33.  With a graph and
    the outcome [NONEMBEDDABLE] it returns 33 when a bit of the K3,3 family
    is set in the minor type, else 5 when a bit of [MINORTYPE_E] is set in
    it, else 0; in every other session it returns 0. *)
Theorem witness_type_classification (s : Session) :
  (tl_planarity_witness_type s = 0 \/ tl_planarity_witness_type s = 5 \/
   tl_planarity_witness_type s = 33) /\
  (forall g, g_graph s = Some g -> g_lastEmbedResult s = NONEMBEDDABLE ->
     (k33_family_present (IC_minorType g) ->
        tl_planarity_witness_type s = 33) /\
     (~ k33_family_present (IC_minorType g) ->
      bit_present (IC_minorType g) MINORTYPE_E ->
        tl_planarity_witness_type s = 5) /\
     (~ k33_family_present (IC_minorType g) ->
      ~ bit_present (IC_minorType g) MINORTYPE_E ->
        tl_planarity_witness_type s = 0)) /\
  (g_graph s = None \/ g_lastEmbedResult s <> NONEMBEDDABLE ->
     tl_planarity_witness_type s = 0).
Proof.
  unfold tl_planarity_witness_type. split; [|split].
  - destruct (g_graph s); [|auto].
    destruct (negb (_ =? NONEMBEDDABLE)); [auto|].
    repeat (destruct (negb _)); auto.
  - intros g -> ->. rewrite Z.eqb_refl. simpl.
    rewrite <- k33Mask_present, <- land_nonzero_iff.
    destruct (Z.eqb_spec (Z.land (IC_minorType g) k33Mask) 0) as [E|E]; simpl;
      destruct (Z.eqb_spec (Z.land (IC_minorType g) MINORTYPE_E) 0) as [E5|E5];
      simpl; repeat split; intros; try reflexivity; try contradiction; try congruence.
  - intros [->|Hne]; [reflexivity|].
    destruct (g_graph s); [|reflexivity].
    destruct (Z.eqb_spec (g_lastEmbedResult s) NONEMBEDDABLE); [contradiction|reflexivity].
Qed.

End Classification.

(** ** Witness vertices *)

Lemma zrange_filter_sorted (P : Z -> Prop) `{!forall x, Decision (P x)}
    (k : nat) (i : Z) :
  StronglySorted Z.lt (filter P (zrange k i)).
Proof.
  revert i. induction k as [|k IH]; intros i; simpl; [constructor|].
  rewrite filter_cons. destruct (decide (P i)); [|apply IH].
  constructor; [apply IH|].
  apply Forall_forall. intros x Hx.
  apply list_elem_of_filter in Hx as [_ Hx]. apply elem_of_zrange in Hx. lia.
Qed.

Section WitnessVertices.
Context {L : GraphLib}.

Lemma count_witness_vertices_spec (g : graph) (k : nat) (x count : Z) :
  count_witness_vertices k x g count
  = count + Z.of_nat (length (filter (fun y => gp_VirtualVertexInUse g y = true)
                                (zrange k x))).
Proof.
  revert x count. induction k as [|k IH]; intros x count; simpl; [lia|].
  rewrite IH, filter_cons.
  destruct (decide (gp_VirtualVertexInUse g x = true)) as [E|E].
  - rewrite E. simpl length. lia.
  - apply not_true_is_false in E. rewrite E. reflexivity.
Qed.

Lemma write_witness_vertices_loop_spec (g : graph) (k : nat) (x : Z)
    (done rest : list Z) :
  let vs := filter (fun y => gp_VirtualVertexInUse g y = true) (zrange k x) in
  (length vs <= length rest)%nat ->
  write_witness_vertices_loop k x g (Z.of_nat (length done), done ++ rest)
  = Done (Z.of_nat (length (done ++ vs)), (done ++ vs) ++ drop (length vs) rest).
Proof.
  revert x done rest. induction k as [|k IH]; intros x done rest; simpl.
  - intros _. rewrite app_nil_r, drop_0. reflexivity.
  - rewrite filter_cons.
    destruct (decide (gp_VirtualVertexInUse g x = true)) as [E|E].
    + rewrite E. simpl length. intros Hlen.
      rewrite store_next by (intros ->; simpl in Hlen; lia). simpl.
      replace (Z.of_nat (length done) + 1) with (Z.of_nat (length (done ++ [x])))
        by (rewrite length_app; simpl; lia).
      rewrite IH by (rewrite length_drop; lia).
      rewrite drop_drop, <- !app_assoc. reflexivity.
    + apply not_true_is_false in E. rewrite E. apply IH.
Qed.

(** C8.  With a graph and the outcome [NONEMBEDDABLE], on a buffer with room
    for them, [tl_planarity_write_witness_vertices] writes from index 0 on
    the vertices of [[0, n)] that [gp_VirtualVertexInUse] flags, in rising
    order, and leaves the rest of the buffer; and
    [tl_planarity_witness_vertex_count] returns how many they are. *)
Theorem witness_vertices_emitted (s : Session) (g : graph) (vertexIds : list Z) :
  g_graph s = Some g ->
  g_lastEmbedResult s = NONEMBEDDABLE ->
  let vs := virtual_vertices g (g_vertexCount s) in
  (length vs <= length vertexIds)%nat ->
  tl_planarity_write_witness_vertices s vertexIds
    = Done (vs ++ drop (length vs) vertexIds) /\
  tl_planarity_witness_vertex_count s = Z.of_nat (length vs) /\
  StronglySorted Z.lt vs /\
  (forall x, x ∈ vs <->
     0 <= x < g_vertexCount s /\ gp_VirtualVertexInUse g x = true).
Proof.
  intros Hg Hr vs Hlen.
  unfold tl_planarity_write_witness_vertices, tl_planarity_witness_vertex_count.
  rewrite Hg, Hr, Z.eqb_refl. simpl.
  repeat split.
  - pose proof (write_witness_vertices_loop_spec g
                  (Z.to_nat (g_vertexCount s)) 0 [] vertexIds Hlen) as H.
    cbn [length app] in H. change (Z.of_nat 0) with 0 in H.
    rewrite H. reflexivity.
  - rewrite count_witness_vertices_spec. reflexivity.
  - apply zrange_filter_sorted.
  - apply list_elem_of_filter in H as [_ H]. apply elem_of_zrange in H. lia.
  - apply list_elem_of_filter in H as [_ H]. apply elem_of_zrange in H. lia.
  - apply list_elem_of_filter in H as [H _]. exact H.
  - intros [Hx Hv]. apply list_elem_of_filter. split; [exact Hv|].
    apply elem_of_zrange. lia.
Qed.

End WitnessVertices.

(** ** Witness edges *)

Lemma filter_ext_elem (P Q : Z -> Prop) `{!forall x, Decision (P x)}
    `{!forall x, Decision (Q x)} (l : list Z) :
  (forall x, x ∈ l -> (P x <-> Q x)) -> filter P l = filter Q l.
Proof.
  induction l as [|y l IH]; intros Hext; [reflexivity|].
  rewrite !filter_cons.
  rewrite IH by (intros x Hx; apply Hext; right; exact Hx).
  pose proof (Hext y (list_elem_of_here _ _)) as Hy.
  destruct (decide (P y)), (decide (Q y)); tauto || reflexivity.
Qed.

Lemma elem_of_first_occurrences (l : list Z) (x : Z) :
  x ∈ first_occurrences l <-> x ∈ l.
Proof.
  induction l as [|y l IH]; simpl; [reflexivity|].
  rewrite !elem_of_cons, list_elem_of_filter, IH.
  destruct (decide (x = y)); tauto.
Qed.

Lemma NoDup_first_occurrences (l : list Z) : NoDup (first_occurrences l).
Proof.
  induction l as [|y l IH]; simpl; [constructor|].
  apply NoDup_cons. split.
  - rewrite list_elem_of_filter. tauto.
  - apply NoDup_filter, IH.
Qed.

Lemma first_occurrences_sublist (l : list Z) : first_occurrences l `sublist_of` l.
Proof.
  induction l as [|y l IH]; simpl; [constructor|].
  apply sublist_skip. etransitivity; [apply sublist_filter|exact IH].
Qed.

Lemma emitting_seen (seen : list bool) (x : Z) (l : list Z) :
  flag_at seen x = true -> emitting seen (x :: l) = emitting seen l.
Proof.
  intros Hx. unfold emitting. simpl. rewrite filter_cons.
  rewrite decide_False by congruence.
  rewrite list_filter_filter. apply list_filter_iff.
  intros y. split; [tauto|]. intros Hy. split; [exact Hy|congruence].
Qed.

Lemma emitting_fresh (seen : list bool) (x : Z) (l : list Z) :
  flag_at seen x = false ->
  0 <= x < Z.of_nat (length seen) ->
  Forall (fun y => 0 <= y) l ->
  emitting seen (x :: l) = x :: emitting (set_at seen x true) l.
Proof.
  intros Hx Hin Hpos. unfold emitting. simpl. rewrite filter_cons.
  rewrite decide_True by exact Hx. f_equal.
  rewrite list_filter_filter. apply filter_ext_elem.
  intros y Hy. apply (proj1 (elem_of_first_occurrences _ _)) in Hy.
  rewrite Forall_forall in Hpos. specialize (Hpos y Hy).
  rewrite flag_at_set_at by lia.
  destruct (decide (y = x)); [split; [tauto|discriminate]|tauto].
Qed.

Lemma emitting_fresh_all (k : nat) (l : list Z) :
  emitting (replicate k false) l = first_occurrences l.
Proof.
  unfold emitting. induction (first_occurrences l) as [|y t IH]; [reflexivity|].
  rewrite filter_cons_True by apply flag_at_replicate. f_equal. exact IH.
Qed.

Section WitnessEdges.
Context {L : GraphLib}.

Lemma arc_edge_id_allocated (s : Session) (arc : Z) :
  map_allocated s -> arc_edge_id s arc = Done (edge_id_of s arc).
Proof.
  intros (amap & Hm & Hlen). unfold arc_edge_id, edge_id_of. rewrite Hm.
  destruct ((0 <=? arc) && (arc <? g_edgeIdByArcSize s)) eqn:E; [|reflexivity].
  apply andb_true_iff in E as [E1 E2].
  apply Z.leb_le in E1. apply Z.ltb_lt in E2.
  simpl. rewrite Hlen. zcases.
Qed.

Lemma scan_ids_step (s : Session) (g : graph) (k : nat) (arc : Z) :
  scan_ids s g (S k) arc
  = (if gp_EdgeInUse g arc
     then if (0 <=? edge_id_of s arc) && (edge_id_of s arc <? g_edgeCount s)
          then [edge_id_of s arc] else []
     else []) ++ scan_ids s g k (arc + 1).
Proof.
  unfold scan_ids. simpl. rewrite filter_cons.
  destruct (decide (gp_EdgeInUse g arc = true)) as [E|E].
  - rewrite E. simpl map. rewrite filter_cons.
    destruct (decide (0 <= edge_id_of s arc < g_edgeCount s)); zcases.
  - apply not_true_is_false in E. rewrite E. reflexivity.
Qed.

Lemma scan_ids_nonneg (s : Session) (g : graph) (k : nat) (arc : Z) :
  Forall (fun y => 0 <= y) (scan_ids s g k arc).
Proof.
  apply Forall_forall. intros y Hy.
  apply list_elem_of_filter in Hy as [Hy _]. lia.
Qed.

Lemma mapped_edge_ids_scan (s : Session) (g : graph) :
  mapped_edge_ids s g
  = scan_ids s g (Z.to_nat (gp_EdgeInUseIndexBound g - gp_GetFirstEdge g))
      (gp_GetFirstEdge g).
Proof. reflexivity. Qed.

Lemma write_witness_arcs_spec (s : Session) (g : graph) (k : nat) (arc : Z)
    (seen : list bool) (done rest : list Z) :
  map_allocated s ->
  length seen = Z.to_nat (g_edgeCount s) ->
  let em := emitting seen (scan_ids s g k arc) in
  (length em <= length rest)%nat ->
  exists seen',
    write_witness_arcs k arc s g (seen, Z.of_nat (length done), done ++ rest)
    = Done (seen', Z.of_nat (length (done ++ em)), (done ++ em) ++ drop (length em) rest).
Proof.
  intros Hmap. revert arc seen done rest.
  induction k as [|k IH]; intros arc seen done rest Hseen; simpl.
  - intros _. exists seen. rewrite app_nil_r, drop_0. reflexivity.
  - rewrite scan_ids_step.
    destruct (gp_EdgeInUse g arc) eqn:Euse; simpl; [|apply IH; exact Hseen].
    rewrite arc_edge_id_allocated by exact Hmap. simpl.
    unfold fresh_edge.
    destruct ((0 <=? edge_id_of s arc) && (edge_id_of s arc <? g_edgeCount s)) eqn:Ein;
      simpl; [|apply IH; exact Hseen].
    apply andb_true_iff in Ein as [E1 E2].
    apply Z.leb_le in E1. apply Z.ltb_lt in E2.
    destruct (flag_at seen (edge_id_of s arc)) eqn:Eseen; simpl.
    + rewrite emitting_seen by exact Eseen. apply IH; exact Hseen.
    + rewrite emitting_fresh by (auto using scan_ids_nonneg; lia).
      simpl length. intros Hlen.
      rewrite store_next by (intros ->; simpl in Hlen; lia). simpl.
      replace (Z.of_nat (length done) + 1)
        with (Z.of_nat (length (done ++ [edge_id_of s arc])))
        by (rewrite length_app; simpl; lia).
      destruct (IH (arc + 1) (set_at seen (edge_id_of s arc) true)
                  (done ++ [edge_id_of s arc]) (drop 1 rest)) as [seen' Hrun].
      { rewrite length_set_at. exact Hseen. }
      { rewrite length_drop. lia. }
      exists seen'. rewrite Hrun, drop_drop, <- !app_assoc. reflexivity.
Qed.

Lemma count_witness_arcs_spec (s : Session) (g : graph) (k : nat) (arc : Z)
    (seen : list bool) (count : Z) :
  map_allocated s ->
  length seen = Z.to_nat (g_edgeCount s) ->
  exists seen',
    count_witness_arcs k arc s g (seen, count)
    = Done (seen', count + Z.of_nat (length (emitting seen (scan_ids s g k arc)))).
Proof.
  intros Hmap. revert arc seen count.
  induction k as [|k IH]; intros arc seen count Hseen; simpl.
  - exists seen. f_equal. f_equal. unfold emitting, scan_ids. simpl. lia.
  - rewrite scan_ids_step.
    destruct (gp_EdgeInUse g arc) eqn:Euse; simpl; [|apply IH; exact Hseen].
    rewrite arc_edge_id_allocated by exact Hmap. simpl.
    unfold fresh_edge.
    destruct ((0 <=? edge_id_of s arc) && (edge_id_of s arc <? g_edgeCount s)) eqn:Ein;
      simpl; [|apply IH; exact Hseen].
    apply andb_true_iff in Ein as [E1 E2].
    apply Z.leb_le in E1. apply Z.ltb_lt in E2.
    destruct (flag_at seen (edge_id_of s arc)) eqn:Eseen; simpl.
    + rewrite emitting_seen by exact Eseen. apply IH; exact Hseen.
    + rewrite emitting_fresh by (auto using scan_ids_nonneg; lia).
      destruct (IH (arc + 1) (set_at seen (edge_id_of s arc) true) (count + 1))
        as [seen' Hrun].
      { rewrite length_set_at. exact Hseen. }
      exists seen'. rewrite Hrun. do 2 f_equal.
      change (length (?x :: ?t)) with (S (length t)). lia.
Qed.

End WitnessEdges.

(** ** The arc-to-edge matching *)

Lemma endpoints_match_test (u v : list Z) (e a b : Z) :
  ((int_at u e =? a) && (int_at v e =? b)) || ((int_at u e =? b) && (int_at v e =? a)) = true
  <-> endpoints_match u v e a b.
Proof.
  unfold endpoints_match.
  rewrite orb_true_iff, !andb_true_iff, !Z.eqb_eq. reflexivity.
Qed.

Lemma map_lookup_outside (size : Z) (amap : list Z) (x : Z) :
  ~ (0 <= x < size) -> map_lookup size amap x = -1.
Proof. intros H. unfold map_lookup. zcases. Qed.

Lemma map_lookup_replicate (size : Z) (x : Z) :
  map_lookup size (replicate (Z.to_nat size) (-1)) x = -1.
Proof.
  unfold map_lookup, int_at.
  destruct ((0 <=? x) && (x <? size)) eqn:E; [|reflexivity].
  apply andb_true_iff in E as [E1 E2].
  apply Z.leb_le in E1. apply Z.ltb_lt in E2.
  rewrite lookup_replicate_2 by lia. reflexivity.
Qed.

Lemma map_lookup_record (size : Z) (amap : list Z) (a t r x : Z) :
  length amap = Z.to_nat size ->
  0 <= a < size -> 0 <= t < size ->
  map_lookup size (record_match size a t r amap) x
  = if decide (x = a \/ x = t) then r else map_lookup size amap x.
Proof.
  intros Hlen Ha Ht. unfold record_match, map_lookup.
  destruct (Z.leb_spec 0 a); [|lia]. destruct (Z.ltb_spec a size); [|lia].
  destruct (Z.leb_spec 0 t); [|lia]. destruct (Z.ltb_spec t size); [|lia].
  simpl.
  destruct (Z.leb_spec 0 x); simpl.
  - destruct (Z.ltb_spec x size); simpl.
    + rewrite !int_at_set_at by (rewrite ?length_set_at; lia).
      destruct (decide (x = t)), (decide (x = a)), (decide (x = a \/ x = t));
        try reflexivity; tauto.
    + rewrite decide_False by lia. reflexivity.
  - rewrite decide_False by lia. reflexivity.
Qed.

Section Matching.
Context {L : GraphLib}.
Variables (u v : list Z).

Lemma find_match_spec (k : nat) (e : Z) (used : list bool) (ua va : Z) :
  0 <= e ->
  (find_match k e used u v ua va = (-1, used) /\
   forall e', e <= e' < e + Z.of_nat k ->
     flag_at used e' = true \/ ~ endpoints_match u v e' ua va)
  \/
  (exists r,
     find_match k e used u v ua va = (r, set_at used r true) /\
     e <= r < e + Z.of_nat k /\
     flag_at used r = false /\
     endpoints_match u v r ua va /\
     forall e', e <= e' < r ->
       flag_at used e' = true \/ ~ endpoints_match u v e' ua va).
Proof.
  revert e. induction k as [|k IH]; intros e He.
  - left. split; [reflexivity|]. intros e' He'. lia.
  - cbn [find_match].
    destruct (flag_at used e) eqn:Eflag.
    + destruct (IH (e + 1)) as [[Hrun Hnone]|(r & Hrun & Hr & Hfree & Hmatch & Hbefore)];
        [lia| |].
      * left. split; [exact Hrun|]. intros e' He'.
        destruct (decide (e' = e)) as [->|]; [left; exact Eflag|apply Hnone; lia].
      * right. exists r. repeat split; try (exact Hrun || exact Hfree || exact Hmatch || lia).
        intros e' He'.
        destruct (decide (e' = e)) as [->|]; [left; exact Eflag|apply Hbefore; lia].
    + destruct (_ || _) eqn:Etest.
      * right. exists e. apply endpoints_match_test in Etest.
        repeat split; try (reflexivity || exact Eflag || exact Etest || lia).
      * assert (~ endpoints_match u v e ua va) as Hno.
        { intros Hm. apply endpoints_match_test in Hm. congruence. }
        destruct (IH (e + 1)) as [[Hrun Hnone]|(r & Hrun & Hr & Hfree & Hmatch & Hbefore)];
          [lia| |].
        -- left. split; [exact Hrun|]. intros e' He'.
           destruct (decide (e' = e)) as [->|]; [right; exact Hno|apply Hnone; lia].
        -- right. exists r. repeat split; try (exact Hrun || exact Hfree || exact Hmatch || lia).
           intros e' He'.
           destruct (decide (e' = e)) as [->|]; [right; exact Hno|apply Hbefore; lia].
Qed.

End Matching.

Section MatchingInvariant.
Context {L : GraphLib}.
Variables (g : graph) (m : Z) (u v : list Z) (size : Z).

Local Abbreviation first := (gp_GetFirstEdge g).
Local Abbreviation bound := (gp_EdgeInUseIndexBound g).
Local Abbreviation twin := (gp_GetTwinArc g).
Local Abbreviation lk := (map_lookup size).

(** What the adapter takes for granted of the library's arc encoding: twins
    come in pairs, the map has a cell for an arc exactly when it has one for
    its twin, and the handles in use lie within the map. *)
Hypothesis twin_involutive : forall a, twin (twin a) = a.
Hypothesis twin_in_map : forall a, 0 <= a < size -> 0 <= twin a < size.
Hypothesis first_nonneg : 0 <= first.
Hypothesis bound_in_map : bound <= size.

Lemma matching_inv_init :
  matching_inv g m u v size first
    (replicate (Z.to_nat m) false) (replicate (Z.to_nat size) (-1)).
Proof.
  unfold matching_inv. rewrite !length_replicate.
  repeat split; try reflexivity.
  - intros x. rewrite !map_lookup_replicate. reflexivity.
  - rewrite map_lookup_replicate in H. congruence.
  - rewrite map_lookup_replicate in H. congruence.
  - rewrite map_lookup_replicate in H. congruence.
  - rewrite map_lookup_replicate in H. congruence.
  - intros e _ He. rewrite flag_at_replicate in He. discriminate.
  - intros x y Hx. rewrite map_lookup_replicate in Hx. congruence.
  - intros a Ha. lia.
Qed.

Lemma claimed_before_stable (amap amap' : list Z) (a e : Z) :
  (forall c, c < a -> lk amap' c = lk amap c) ->
  claimed_before g size amap a e <-> claimed_before g size amap' a e.
Proof.
  intros Hlow. unfold claimed_before.
  split; intros (c & Hc & Hcan & Hlk); exists c;
    (split; [exact Hc|split; [exact Hcan|]]).
  - rewrite Hlow by lia. exact Hlk.
  - rewrite <- Hlow by lia. exact Hlk.
Qed.

Lemma first_unclaimed_stable (amap amap' : list Z) (a e : Z) :
  (forall c, c < a -> lk amap' c = lk amap c) ->
  first_unclaimed_match g m u v size amap a e ->
  first_unclaimed_match g m u v size amap' a e.
Proof.
  intros Hlow. unfold first_unclaimed_match.
  intros [[-> Hall]|(He & Hm & Hnot & Hall)].
  - left. split; [reflexivity|]. intros e' He' Hm'.
    apply (claimed_before_stable amap amap'); auto.
  - right. repeat split; try tauto; try lia.
    + intros Hc. apply Hnot. apply (claimed_before_stable amap amap'); auto.
    + intros e' He' Hm'. apply (claimed_before_stable amap amap'); auto.
Qed.

Lemma claimed_before_mono (amap : list Z) (a b e : Z) :
  a <= b -> claimed_before g size amap a e -> claimed_before g size amap b e.
Proof.
  intros Hab (c & Hc & Hcan & Hlk). exists c.
  split; [lia|split; assumption].
Qed.

Lemma matching_inv_skip (cur : Z) (used : list bool) (amap : list Z) :
  matching_inv g m u v size cur used amap ->
  (canonical g cur -> first_unclaimed_match g m u v size amap cur (lk amap cur)) ->
  matching_inv g m u v size (cur + 1) used amap.
Proof.
  intros (Hlu & Hla & HA & HB & HC & HD & HE) Hcur.
  repeat split; try assumption.
  - apply (HB x H).
  - apply (HB x H).
  - apply (HB x H).
  - destruct (HB x H) as (_ & _ & c & Hc & Hcan & Hx).
    exists c. split; [lia|split; assumption].
  - intros e He Hflag. apply (claimed_before_mono amap cur); [lia|auto].
  - intros a Ha Hcan.
    destruct (decide (a = cur)) as [->|]; [auto|apply HE; [lia|exact Hcan]].
Qed.

Lemma matching_inv_step (cur : Z) (used : list bool) (amap : list Z) :
  first <= cur < bound ->
  matching_inv g m u v size cur used amap ->
  matching_inv g m u v size (cur + 1)
    (fst (match_arc g m u v size cur (used, amap)))
    (snd (match_arc g m u v size cur (used, amap))).
Proof.
  intros Hcur Hinv.
  pose proof Hinv as (Hlu & Hla & HA & HB & HC & HD & HE).
  unfold match_arc.
  destruct (gp_EdgeInUse g cur) eqn:Euse; simpl;
    [|apply matching_inv_skip; [exact Hinv|]; intros [Hc _]; congruence].
  destruct (Z.ltb_spec (twin cur) cur) as [Hlt|Hge];
    [apply matching_inv_skip; [exact Hinv|]; intros [_ Hc]; lia|].
  assert (Hcan : canonical g cur) by (split; [exact Euse|lia]).
  assert (Hfresh : lk amap cur = -1).
  { destruct (decide (lk amap cur = -1)) as [|Hne]; [assumption|].
    destruct (HB cur Hne) as (_ & _ & c & Hc & _ & [->|Hx]); [lia|].
    rewrite Hx, twin_involutive in Hge. lia. }
  destruct (find_match_spec u v (Z.to_nat m) 0 used
              (gp_GetNeighbor g (twin cur)) (gp_GetNeighbor g cur))
    as [[Hrun Hnone]|(r & Hrun & Hr & Hfree & Hmatch & Hbefore)]; [lia| |];
    rewrite Hrun; simpl.
  - apply matching_inv_skip; [exact Hinv|]. intros _.
    rewrite Hfresh. left. split; [reflexivity|]. intros e' He' Hm'.
    apply HC; [lia|]. destruct (Hnone e') as [Hflag|Hno]; [lia|exact Hflag|].
    contradiction.
  - destruct (Z.leb_spec 0 r) as [_|]; [|lia]. simpl.
    assert (Hrm : 0 <= r < m) by lia.
    assert (Hin : 0 <= cur < size) by lia.
    pose proof (twin_in_map cur Hin) as Htin.
    set (amap' := record_match size cur (twin cur) r amap).
    assert (Hlk' : forall x, lk amap' x
                   = if decide (x = cur \/ x = twin cur) then r else lk amap x).
    { intros x. apply map_lookup_record; assumption. }
    assert (Hlow : forall c, c < cur -> lk amap' c = lk amap c).
    { intros c Hc. rewrite Hlk'. rewrite decide_False by lia. reflexivity. }
    assert (Hflag' : forall e, 0 <= e ->
              flag_at (set_at used r true) e
              = if decide (e = r) then true else flag_at used e).
    { intros e He. apply flag_at_set_at; lia. }
    assert (Hnew : forall x, lk amap x <> -1 -> x <> cur /\ x <> twin cur).
    { intros x Hx. split; intros ->; [congruence|].
      rewrite <- HA in Hx. congruence. }
    repeat split.
    + rewrite length_set_at. exact Hlu.
    + unfold amap', record_match.
      repeat (destruct (_ && _)); rewrite ?length_set_at; exact Hla.
    + intros x. rewrite !Hlk'.
      destruct (decide (x = cur \/ x = twin cur)) as [Hx|Hx],
               (decide (twin x = cur \/ twin x = twin cur)) as [Ht|Ht];
        try reflexivity.
      * exfalso. apply Ht. destruct Hx as [->| ->];
          [right; reflexivity|left; apply twin_involutive].
      * exfalso. apply Hx. destruct Ht as [Ht|Ht].
        -- right. rewrite <- Ht. symmetry. apply twin_involutive.
        -- left. rewrite <- (twin_involutive x), Ht. apply twin_involutive.
      * apply HA.
    + revert H. rewrite Hlk'. destruct (decide _); [lia|]. intros H. apply (HB x H).
    + revert H. rewrite Hlk'. destruct (decide _); [lia|]. intros H. apply (HB x H).
    + revert H. rewrite Hlk'. destruct (decide _) as [Hx|Hx].
      * intros _. rewrite Hflag' by lia. rewrite decide_True; reflexivity.
      * intros H. destruct (HB x H) as (Hrange & Hfl & _).
        rewrite Hflag' by lia. destruct (decide _); [reflexivity|exact Hfl].
    + revert H. rewrite Hlk'. destruct (decide _) as [Hx|Hx].
      * intros _. exists cur. split; [lia|split; assumption].
      * intros H. destruct (HB x H) as (_ & _ & c & Hc & Hcc & Hxc).
        exists c. split; [lia|split; assumption].
    + intros e He. rewrite Hflag' by lia.
      destruct (decide (e = r)) as [->|Hne].
      * intros _. exists cur. split; [lia|split; [assumption|]].
        rewrite Hlk'. rewrite decide_True by (left; reflexivity). reflexivity.
      * intros Hfl. apply (claimed_before_mono amap' cur); [lia|].
        apply (claimed_before_stable amap amap'); [exact Hlow|]. apply HC; assumption.
    + intros x y. rewrite !Hlk'.
      destruct (decide (x = cur \/ x = twin cur)) as [Hx|Hx],
               (decide (y = cur \/ y = twin cur)) as [Hy|Hy].
      * intros _ _. destruct Hx as [->| ->], Hy as [->| ->]; auto.
      * intros _ Hyr. exfalso.
        assert (lk amap y <> -1) as Hy1 by lia.
        destruct (HB y Hy1) as (_ & Hfl & _). congruence.
      * intros Hx1 Hxr. exfalso.
        destruct (HB x Hx1) as (_ & Hfl & _). congruence.
      * apply HD.
    + intros a Ha Hcana. rewrite Hlk'.
      destruct (decide (a = cur)) as [->|Hne].
      * rewrite decide_True by (left; reflexivity).
        right. repeat split; try tauto; try lia.
        -- intros (c & Hc & Hcc & Hlkc). rewrite Hlow in Hlkc by lia.
           assert (lk amap c <> -1) as Hc1 by lia.
           destruct (HB c Hc1) as (_ & Hfl & _). congruence.
        -- intros e' He' Hm'.
           apply (claimed_before_stable amap amap'); [exact Hlow|].
           apply HC; [lia|]. destruct (Hbefore e') as [Hfl|Hno]; [lia|exact Hfl|].
           contradiction.
      * rewrite decide_False by (destruct Hcana; lia).
        apply (first_unclaimed_stable amap amap');
          [intros c Hc; apply Hlow; lia|].
        apply HE; [lia|exact Hcana].
Qed.

Lemma matching_inv_loop (k : nat) (cur : Z) (used : list bool) (amap : list Z) :
  first <= cur -> cur + Z.of_nat k <= bound ->
  matching_inv g m u v size cur used amap ->
  matching_inv g m u v size (cur + Z.of_nat k)
    (fst (match_arcs k cur g m u v size (used, amap)))
    (snd (match_arcs k cur g m u v size (used, amap))).
Proof.
  revert cur used amap. induction k as [|k IH]; intros cur used amap Hlo Hhi Hinv.
  - simpl. replace (cur + Z.of_nat 0) with cur by lia. exact Hinv.
  - cbn [match_arcs].
    pose proof (matching_inv_step cur used amap ltac:(lia) Hinv) as Hstep.
    destruct (match_arc g m u v size cur (used, amap)) as [used' amap'].
    replace (cur + Z.of_nat (S k)) with ((cur + 1) + Z.of_nat k) by lia.
    apply IH; [lia|lia|exact Hstep].
Qed.

(** C4.  On a graph whose twin function is an involution, whose arc map has
    a cell for an arc exactly when it has one for its twin, and whose
    handles in use lie within the map, the map the matching phase leaves
    from an all-unmapped map satisfies, for the guarded lookup: an arc and
    its twin carry the same value (an edge identity, or both the sentinel);
    two arcs that carry the same edge identity are equal or twins; every arc
    the matching visits carries the first input edge, in input order, that
    joins its endpoints and is not claimed by an arc visited before, or the
    sentinel when there is none; and only the visited arcs and their twins
    are mapped, with identities in [[0, m)]. *)
Theorem arc_map_matching :
  let amap := build_arc_map g m u v size (replicate (Z.to_nat size) (-1)) in
  (forall a, lk amap a = lk amap (twin a)) /\
  (forall a b, lk amap a <> -1 -> lk amap b = lk amap a -> b = a \/ b = twin a) /\
  (forall a, first <= a < bound -> canonical g a ->
     first_unclaimed_match g m u v size amap a (lk amap a)) /\
  (forall a, lk amap a <> -1 ->
     0 <= lk amap a < m /\
     exists c, first <= c < bound /\ canonical g c /\ (a = c \/ a = twin c)).
Proof.
  intros amap.
  assert (exists cur, first <= cur /\ (first <= bound -> cur = bound) /\
                      (bound < first -> cur = first) /\
                      matching_inv g m u v size cur
                        (fst (match_arcs (Z.to_nat (bound - first)) first g m u v size
                                (replicate (Z.to_nat m) false,
                                 replicate (Z.to_nat size) (-1))))
                        amap) as (cur & Hlo & Hle & Hgt & Hinv).
  { destruct (Z.le_gt_cases first bound) as [Hfb|Hfb].
    - exists (first + Z.of_nat (Z.to_nat (bound - first))).
      split; [lia|]. split; [lia|]. split; [lia|].
      apply matching_inv_loop; [lia|lia|apply matching_inv_init].
    - exists first. split; [lia|]. split; [lia|]. split; [lia|].
      unfold amap, build_arc_map.
      replace (Z.to_nat (bound - first)) with O by lia.
      apply matching_inv_init. }
  destruct Hinv as (_ & _ & HA & HB & _ & HD & HE).
  repeat split.
  - exact HA.
  - exact HD.
  - intros a Ha Hcan. apply HE; [lia|exact Hcan].
  - apply (HB a H).
  - apply (HB a H).
  - destruct (HB a H) as (_ & _ & c & Hc & Hcan & Hac).
    exists c. split; [lia|split; assumption].
Qed.

End MatchingInvariant.

(** ** What a run leaves in the session *)

Section RunFacts.
Context {L : GraphLib}.

Lemma fill_unmapped_spec (k j : nat) (x : Z) :
  fill_unmapped k (Z.of_nat j) (replicate j (-1) ++ replicate k x)
  = replicate (j + k) (-1).
Proof.
  revert j. induction k as [|k IH]; intros j; simpl.
  - rewrite app_nil_r, Nat.add_0_r. reflexivity.
  - unfold set_at. rewrite Nat2Z.id.
    rewrite insert_app_r_alt by (rewrite length_replicate; lia).
    rewrite length_replicate, Nat.sub_diag. simpl.
    replace (Z.of_nat j + 1) with (Z.of_nat (S j)) by lia.
    replace (replicate j (-1) ++ -1 :: replicate k x)
      with (replicate (S j) (-1) ++ replicate k x)
      by (rewrite replicate_S_end, <- app_assoc; reflexivity).
    rewrite IH. f_equal. lia.
Qed.

Lemma fill_unmapped_all (size : Z) :
  fill_unmapped (Z.to_nat size) 0 (replicate (Z.to_nat size) 0)
  = replicate (Z.to_nat size) (-1).
Proof. exact (fill_unmapped_spec (Z.to_nat size) 0 0). Qed.

(** The session a run leaves when it gets as far as the decision
    procedure. *)
Lemma run_reaches_decision h n m u v embedFlags (s : Session) g0 g1 g2 g3 g4 r :
  0 < n -> 0 <= m ->
  gp_New = Some g0 ->
  gp_EnsureArcCapacity g0 (if m * 2 + 4 <? 6 * n then 6 * n else m * 2 + 4)
    = (g1, OK) ->
  gp_InitGraph g1 n = (g2, OK) ->
  malloc_ok h (gp_EdgeIndexBound g2) = true ->
  add_edges (Z.to_nat m) 0 g2 u v = (g3, true) ->
  calloc_ok h m = true ->
  gp_Embed g3 embedFlags = (g4, r) ->
  tl_planarity_run h n m u v embedFlags s
  = (mkSession
       (Some (if (r =? OK) || (r =? NONEMBEDDABLE) then gp_SortVertices g4 else g4))
       (Some (build_arc_map g3 m u v (gp_EdgeIndexBound g2)
                (replicate (Z.to_nat (gp_EdgeIndexBound g2)) (-1))))
       (gp_EdgeIndexBound g2) n m r, r).
Proof.
  intros Hn Hm Hnew Hcap Hinit Hmalloc Hadd Hcalloc Hembed.
  unfold tl_planarity_run.
  destruct (Z.leb_spec n 0); [lia|]. destruct (Z.ltb_spec m 0); [lia|].
  rewrite Hnew, Hcap, Z.eqb_refl. simpl.
  rewrite Hinit, Z.eqb_refl. simpl.
  rewrite Hmalloc, Hadd, Hcalloc, Hembed. simpl.
  rewrite fill_unmapped_all. reflexivity.
Qed.

Lemma match_arcs_values (g : graph) (m : Z) (u v : list Z) (size : Z)
    (k : nat) (arc : Z) (st : list bool * list Z) :
  Forall (fun e => e = -1 \/ 0 <= e < m) (snd st) ->
  Forall (fun e => e = -1 \/ 0 <= e < m) (snd (match_arcs k arc g m u v size st)).
Proof.
  revert arc st. induction k as [|k IH]; intros arc [used amap] Hall; [exact Hall|].
  cbn [match_arcs]. apply IH. unfold match_arc.
  destruct (negb (gp_EdgeInUse g arc)); [exact Hall|].
  destruct (_ <? arc); [exact Hall|].
  destruct (find_match_spec u v (Z.to_nat m) 0 used
              (gp_GetNeighbor g (gp_GetTwinArc g arc)) (gp_GetNeighbor g arc))
    as [[Hrun _]|(r & Hrun & Hr & _)]; [lia| |]; rewrite Hrun.
  - exact Hall.
  - destruct (0 <=? r); [|exact Hall]. simpl in *.
    unfold record_match, set_at.
    repeat (destruct (_ && _)); repeat apply Forall_insert; auto; right; lia.
Qed.

Lemma run_map_values h n m u v embedFlags (s : Session) (amap : list Z) :
  let s' := fst (tl_planarity_run h n m u v embedFlags s) in
  g_edgeIdByArc s' = Some amap ->
  Forall (fun e => e = -1 \/ 0 <= e < g_edgeCount s') amap.
Proof.
  unfold tl_planarity_run.
  destruct (n <=? 0); [simpl; congruence|].
  destruct (m <? 0); [simpl; congruence|].
  destruct gp_New as [g0|]; [|simpl; congruence].
  destruct (gp_EnsureArcCapacity g0 _) as [g1 rc1].
  destruct (negb (rc1 =? OK)); [simpl; congruence|].
  destruct (gp_InitGraph g1 n) as [g2 rc2].
  destruct (negb (rc2 =? OK)); [simpl; congruence|].
  destruct (negb (malloc_ok h _)); [simpl; congruence|].
  rewrite fill_unmapped_all.
  assert (Forall (fun e => e = -1 \/ 0 <= e < m)
            (replicate (Z.to_nat (gp_EdgeIndexBound g2)) (-1))) as Hinit.
  { apply Forall_forall. intros e He. apply elem_of_replicate in He. tauto. }
  destruct (add_edges _ 0 g2 u v) as [g3 added].
  destruct (negb added); [simpl; intros [= <-]; exact Hinit|].
  destruct (negb (calloc_ok h m)); [simpl; intros [= <-]; exact Hinit|].
  destruct (gp_Embed g3 embedFlags) as [g4 r]. simpl. intros [= <-].
  unfold build_arc_map. apply match_arcs_values. exact Hinit.
Qed.

Lemma reachable_map_values (s : Session) (amap : list Z) :
  reachable s ->
  g_edgeIdByArc s = Some amap ->
  Forall (fun e => e = -1 \/ 0 <= e < g_edgeCount s) amap.
Proof.
  intros Hr. destruct Hr as [|h n m u v fl s _|s _].
  - simpl. congruence.
  - apply run_map_values.
  - simpl. congruence.
Qed.

Lemma reachable_edge_id_of (s : Session) (arc : Z) :
  reachable s -> map_allocated s ->
  edge_id_of s arc = -1 \/ 0 <= edge_id_of s arc < g_edgeCount s.
Proof.
  intros Hr (amap & Hm & Hlen). unfold edge_id_of. rewrite Hm. simpl.
  destruct ((0 <=? arc) && (arc <? g_edgeIdByArcSize s)) eqn:E; [|left; reflexivity].
  apply andb_true_iff in E as [E1 E2].
  apply Z.leb_le in E1. apply Z.ltb_lt in E2.
  pose proof (reachable_map_values s amap Hr Hm) as Hall.
  rewrite Forall_forall in Hall. apply Hall.
  unfold int_at. destruct (amap !! Z.to_nat arc) as [e|] eqn:Elk.
  - simpl. eapply list_elem_of_lookup_2. exact Elk.
  - apply lookup_ge_None in Elk. lia.
Qed.

End RunFacts.

(** ** Witness edges: what is emitted *)

Section WitnessEdgesEmitted.
Context {L : GraphLib}.

(** C7 (amended).  With a graph, the outcome [NONEMBEDDABLE] and the arc map
    allocated: when [calloc] returns the scratch flags,
    [tl_planarity_write_witness_edges] writes from index 0 on, into a buffer
    with room for them, the edge identities in [[0, m)] that the in-use arcs
    map to, each once, at its first occurrence in the order the arcs are
    visited, and [tl_planarity_witness_edge_count] returns how many they
    are; when [calloc] returns [NULL] the writer leaves the buffer as it was
    and the count is 0.  In a session a caller can reach, every identity an
    in-use arc maps to is among them. *)
Theorem witness_edges_emitted (h : Heap) (s : Session) (g : graph)
    (edgeIds : list Z) :
  g_graph s = Some g ->
  g_lastEmbedResult s = NONEMBEDDABLE ->
  map_allocated s ->
  let ids := witness_edge_ids s g in
  (length ids <= length edgeIds)%nat ->
  (calloc_ok h (g_edgeCount s) = true ->
     tl_planarity_write_witness_edges h s edgeIds
       = Done (ids ++ drop (length ids) edgeIds) /\
     tl_planarity_witness_edge_count h s = Done (Z.of_nat (length ids))) /\
  (calloc_ok h (g_edgeCount s) = false ->
     tl_planarity_write_witness_edges h s edgeIds = Done edgeIds /\
     tl_planarity_witness_edge_count h s = Done 0) /\
  NoDup ids /\
  ids `sublist_of` mapped_edge_ids s g /\
  (forall e, e ∈ ids <->
     0 <= e < g_edgeCount s /\
     exists arc, arc ∈ arcs_in_use g /\ edge_id_of s arc = e) /\
  (reachable s ->
     forall arc, arc ∈ arcs_in_use g -> edge_id_of s arc <> -1 ->
       edge_id_of s arc ∈ ids).
Proof.
  intros Hg Hr Hmap ids Hlen.
  assert (Hmem : forall e, e ∈ ids <->
     0 <= e < g_edgeCount s /\
     exists arc, arc ∈ arcs_in_use g /\ edge_id_of s arc = e).
  { intros e. unfold ids, witness_edge_ids, mapped_edge_ids.
    rewrite elem_of_first_occurrences, list_elem_of_filter, list_elem_of_fmap.
    split.
    - intros [He (arc & -> & Harc)]. split; [exact He|]. exists arc. auto.
    - intros [He (arc & Harc & <-)]. split; [exact He|]. exists arc. auto. }
  unfold tl_planarity_write_witness_edges, tl_planarity_witness_edge_count.
  rewrite Hg, Hr, Z.eqb_refl. simpl.
  split; [|split; [|split; [|split; [|split]]]].
  - intros ->. simpl. split.
    + destruct (write_witness_arcs_spec s g
                  (Z.to_nat (gp_EdgeInUseIndexBound g - gp_GetFirstEdge g))
                  (gp_GetFirstEdge g)
                  (replicate (Z.to_nat (g_edgeCount s)) false) [] edgeIds Hmap)
        as [seen' Hrun].
      { apply length_replicate. }
      { rewrite emitting_fresh_all. exact Hlen. }
      cbn [length app] in Hrun. change (Z.of_nat 0) with 0 in Hrun.
      rewrite Hrun. simpl. rewrite emitting_fresh_all. reflexivity.
    + destruct (count_witness_arcs_spec s g
                  (Z.to_nat (gp_EdgeInUseIndexBound g - gp_GetFirstEdge g))
                  (gp_GetFirstEdge g)
                  (replicate (Z.to_nat (g_edgeCount s)) false) 0 Hmap)
        as [seen' Hrun].
      { apply length_replicate. }
      rewrite Hrun. simpl. rewrite emitting_fresh_all. reflexivity.
  - intros ->. simpl. split; reflexivity.
  - apply NoDup_first_occurrences.
  - apply first_occurrences_sublist.
  - exact Hmem.
  - intros Hreach arc Harc Hne. apply Hmem. split.
    + destruct (reachable_edge_id_of s arc Hreach Hmap); [contradiction|assumption].
    + exists arc. auto.
Qed.

Lemma write_witness_arcs_range (s : Session) (g : graph) (k : nat) (arc : Z)
    (st st' : list bool * Z * list Z) :
  write_witness_arcs k arc s g st = Done st' ->
  length (snd st') = length (snd st) /\
  forall i e, snd st' !! i = Some e ->
    snd st !! i = Some e \/ 0 <= e < g_edgeCount s.
Proof.
  revert arc st. induction k as [|k IH]; intros arc st; simpl.
  - intros [= <-]. auto.
  - destruct st as [[seen cursor] buf]. unfold write_witness_arc.
    destruct (negb (gp_EdgeInUse g arc)); simpl; [apply IH|].
    destruct (arc_edge_id s arc) as [e0| |]; simpl; try discriminate.
    unfold fresh_edge.
    destruct ((0 <=? e0) && (e0 <? g_edgeCount s)) eqn:Ein; simpl; [|apply IH].
    destruct (negb (flag_at seen e0)); simpl; [|apply IH].
    unfold store.
    destruct ((0 <=? cursor) && (cursor <? Z.of_nat (length buf))); simpl;
      [|discriminate].
    intros Hrun. apply IH in Hrun as [Hlen Hcells]. simpl in *.
    split; [rewrite Hlen; apply length_set_at|].
    intros i e Hi. destruct (Hcells i e Hi) as [Hold|Hnew]; [|auto].
    unfold set_at in Hold.
    apply list_lookup_insert_Some in Hold as [(_ & <- & _)|[_ Hold]]; [|auto].
    right. apply andb_true_iff in Ein as [E1 E2].
    apply Z.leb_le in E1. apply Z.ltb_lt in E2. lia.
Qed.

(** C10.  The guarded lookup [arc_edge_id] answers the sentinel for every
    handle outside [[0, g_edgeIdByArcSize)], whatever the session, without
    reading the map; in a session a caller can reach whose recorded outcome
    is not 0 (the extraction gates open on [OK] and [NONEMBEDDABLE] only) it
    returns for every handle; and every cell that
    [tl_planarity_write_witness_edges] changes holds an identity in
    [[0, m)]. *)
Theorem arc_lookup_total (h : Heap) (s : Session) :
  (forall arc, ~ (0 <= arc < g_edgeIdByArcSize s) ->
     arc_edge_id s arc = Done (-1)) /\
  (reachable s -> g_lastEmbedResult s <> 0 ->
     forall arc, arc_edge_id s arc = Done (edge_id_of s arc)) /\
  (forall edgeIds out,
     tl_planarity_write_witness_edges h s edgeIds = Done out ->
     length out = length edgeIds /\
     forall i e, out !! i = Some e ->
       edgeIds !! i = Some e \/ 0 <= e < g_edgeCount s).
Proof.
  split; [|split].
  - intros arc Harc. unfold arc_edge_id. zcases.
  - intros Hreach Hne arc. apply arc_edge_id_allocated.
    apply (reachable_outcome_allocated s Hreach Hne).
  - intros edgeIds out. unfold tl_planarity_write_witness_edges.
    destruct (g_graph s) as [g|]; [|intros [= <-]; auto].
    destruct (negb (_ =? NONEMBEDDABLE)); [intros [= <-]; auto|].
    destruct (negb (calloc_ok h _)); [intros [= <-]; auto|].
    destruct (write_witness_arcs _ _ s g _) as [st'| |] eqn:Hrun; simpl;
      try discriminate.
    intros [= <-]. apply write_witness_arcs_range in Hrun. exact Hrun.
Qed.

End WitnessEdgesEmitted.

(** ** The rotation system *)

Lemma rotation_prefix_S (adj : Z -> list Z) (j : nat) :
  rotation_prefix adj (S j) = rotation_prefix adj j ++ adj (Z.of_nat j).
Proof.
  unfold rotation_prefix. rewrite zrange_snoc, map_app, concat_app. simpl.
  rewrite app_nil_r. reflexivity.
Qed.

Lemma rotation_prefix_le (adj : Z -> list Z) (i j : nat) :
  (i <= j)%nat ->
  (length (rotation_prefix adj i) <= length (rotation_prefix adj j))%nat.
Proof.
  induction 1 as [|j Hle IH]; [lia|].
  rewrite rotation_prefix_S, length_app. lia.
Qed.

Lemma rotation_prefix_split (adj : Z -> list Z) (i j : nat) :
  (i < j)%nat ->
  exists rest,
    rotation_prefix adj j = rotation_prefix adj i ++ adj (Z.of_nat i) ++ rest.
Proof.
  induction 1 as [|j Hle [rest IH]].
  - exists []. rewrite rotation_prefix_S, app_nil_r. reflexivity.
  - exists (rest ++ adj (Z.of_nat j)).
    rewrite rotation_prefix_S, IH, <- !app_assoc. reflexivity.
Qed.

Section Rotation.
Context {L : GraphLib}.

Lemma count_arcs_chain (fuel : nat) (g : graph) (arc : Z) (l : list Z) (total : Z) :
  arc_chain g arc l -> (length l < fuel)%nat ->
  count_arcs fuel g arc total = Done (total + Z.of_nat (length l)).
Proof.
  intros Hchain. revert fuel total.
  induction Hchain as [arc Hend|arc l Harc Hchain IH]; intros fuel total Hfuel.
  - destruct fuel as [|fuel]; [simpl in Hfuel; lia|].
    simpl. rewrite Hend. f_equal. lia.
  - destruct fuel as [|fuel]; [simpl in Hfuel; lia|].
    cbn [count_arcs]. rewrite Harc, IH by (simpl in Hfuel; lia).
    f_equal. simpl length. lia.
Qed.

Lemma write_arcs_chain (fuel : nat) (s : Session) (g : graph) (arc : Z)
    (l : list Z) (de dn re rn : list Z) :
  map_allocated s ->
  arc_chain g arc l -> (length l < fuel)%nat ->
  length de = length dn ->
  (length l <= length re)%nat -> (length l <= length rn)%nat ->
  write_arcs fuel s g arc (mkRot (Z.of_nat (length de)) (de ++ re) (dn ++ rn))
  = Done (mkRot (Z.of_nat (length (de ++ map (edge_id_of s) l)))
            ((de ++ map (edge_id_of s) l) ++ drop (length l) re)
            ((dn ++ map (gp_GetNeighbor g) l) ++ drop (length l) rn)).
Proof.
  intros Hmap Hchain. revert fuel de dn re rn.
  induction Hchain as [arc Hend|arc l Harc Hchain IH];
    intros fuel de dn re rn Hfuel Hdd Hre Hrn.
  - destruct fuel as [|fuel]; [simpl in Hfuel; lia|].
    simpl. rewrite Hend, !app_nil_r, !drop_0. reflexivity.
  - destruct fuel as [|fuel]; [simpl in Hfuel; lia|].
    cbn [write_arcs]. rewrite Harc.
    rewrite arc_edge_id_allocated by exact Hmap. simpl in *.
    rewrite store_next by (intros ->; simpl in Hre; lia). simpl.
    rewrite Hdd.
    rewrite store_next by (intros ->; simpl in Hrn; lia). simpl.
    replace (Z.of_nat (length dn) + 1)
      with (Z.of_nat (length (de ++ [edge_id_of s arc])))
      by (rewrite length_app, Hdd; simpl; lia).
    rewrite IH; try (rewrite ?length_app, ?length_drop; simpl; lia).
    rewrite !drop_drop, <- !app_assoc. reflexivity.
Qed.

Lemma rotation_size_loop_chain (fuel : nat) (g : graph) (adj : Z -> list Z)
    (n k j : nat) :
  (j + k = n)%nat ->
  (forall x, 0 <= x < Z.of_nat n ->
     arc_chain g (gp_GetFirstArc g x) (adj x) /\ (length (adj x) < fuel)%nat) ->
  rotation_size_loop fuel g k (Z.of_nat j) (offset_at adj j)
  = Done (offset_at adj n).
Proof.
  intros Hn Hadj. revert j Hn.
  induction k as [|k IH]; intros j Hn.
  - simpl. replace j with n by lia. reflexivity.
  - cbn [rotation_size_loop].
    destruct (Hadj (Z.of_nat j)) as [Hchain Hfuel]; [lia|].
    rewrite (count_arcs_chain fuel g _ _ _ Hchain Hfuel). simpl.
    replace (offset_at adj j + Z.of_nat (length (adj (Z.of_nat j))))
      with (offset_at adj (S j))
      by (unfold offset_at; rewrite rotation_prefix_S, length_app; lia).
    replace (Z.of_nat j + 1) with (Z.of_nat (S j)) by lia.
    apply IH. lia.
Qed.

Lemma write_rotation_loop_chain (fuel : nat) (s : Session) (g : graph)
    (adj : Z -> list Z) (n k j : nat) (ro re rn : list Z) :
  map_allocated s ->
  (j + k = n)%nat ->
  (forall x, 0 <= x < Z.of_nat n ->
     arc_chain g (gp_GetFirstArc g x) (adj x) /\ (length (adj x) < fuel)%nat) ->
  (k <= length ro)%nat ->
  (length (rotation_prefix adj n) <= length (rotation_prefix adj j) + length re)%nat ->
  (length (rotation_prefix adj n) <= length (rotation_prefix adj j) + length rn)%nat ->
  write_rotation_loop fuel s g k (Z.of_nat j)
    (map (offset_at adj) (seq 0 j) ++ ro)
    (mkRot (offset_at adj j)
       (map (edge_id_of s) (rotation_prefix adj j) ++ re)
       (map (gp_GetNeighbor g) (rotation_prefix adj j) ++ rn))
  = Done (map (offset_at adj) (seq 0 n) ++ drop k ro,
          mkRot (offset_at adj n)
            (map (edge_id_of s) (rotation_prefix adj n)
               ++ drop (length (rotation_prefix adj n) - length (rotation_prefix adj j)) re)
            (map (gp_GetNeighbor g) (rotation_prefix adj n)
               ++ drop (length (rotation_prefix adj n) - length (rotation_prefix adj j)) rn)).
Proof.
  intros Hmap Hn Hadj. revert j ro re rn Hn.
  induction k as [|k IH]; intros j ro re rn Hn Hro Hre Hrn.
  - simpl. replace j with n by lia. rewrite Nat.sub_diag, !drop_0. reflexivity.
  - cbn [write_rotation_loop rot_cursor].
    destruct (Hadj (Z.of_nat j)) as [Hchain Hfuel]; [lia|].
    pose proof (rotation_prefix_le adj (S j) n ltac:(lia)) as Hmono.
    rewrite rotation_prefix_S, length_app in Hmono.
    replace (Z.of_nat j) with (Z.of_nat (length (map (offset_at adj) (seq 0 j)))) at 1
      by (rewrite length_map, length_seq; reflexivity).
    rewrite store_next by (intros ->; simpl in Hro; lia).
    pose proof (write_arcs_chain fuel s g _ _
                  (map (edge_id_of s) (rotation_prefix adj j))
                  (map (gp_GetNeighbor g) (rotation_prefix adj j))
                  re rn Hmap Hchain Hfuel) as Hw.
    rewrite <- !map_app, <- rotation_prefix_S, !length_map in Hw.
    fold (offset_at adj j) in Hw. fold (offset_at adj (S j)) in Hw.
    cbn [mbind result_bind].
    rewrite Hw by lia. cbn [mbind result_bind].
    replace (Z.of_nat j + 1) with (Z.of_nat (S j)) by lia.
    replace (map (offset_at adj) (seq 0 j) ++ [offset_at adj j])
      with (map (offset_at adj) (seq 0 (S j)))
      by (rewrite seq_S, map_app; reflexivity).
    rewrite IH; try (rewrite ?length_drop, ?rotation_prefix_S, ?length_app; lia).
    rewrite !drop_drop. repeat f_equal;
      rewrite ?rotation_prefix_S, ?length_app; lia.
Qed.

Lemma rotation_size_chain (fuel : nat) (s : Session) (g : graph)
    (adj : Z -> list Z) :
  g_graph s = Some g ->
  g_lastEmbedResult s = OK ->
  (forall x, 0 <= x < g_vertexCount s ->
     arc_chain g (gp_GetFirstArc g x) (adj x) /\ (length (adj x) < fuel)%nat) ->
  tl_planarity_rotation_size fuel s
  = Done (offset_at adj (Z.to_nat (g_vertexCount s))).
Proof.
  intros Hg Hr Hadj. unfold tl_planarity_rotation_size.
  rewrite Hg, Hr, Z.eqb_refl. simpl.
  apply (rotation_size_loop_chain fuel g adj (Z.to_nat (g_vertexCount s)) _ 0%nat);
    [lia|].
  intros x Hx. apply Hadj. lia.
Qed.

(** C6.  With a graph, the outcome [OK] and the arc map allocated, when
    [adj x] is the adjacency list the walk of vertex [x] visits, the fuel
    outlasts every list and the buffers have room ([n + 1] offsets, one
    cell per incidence in the other two), [tl_planarity_write_rotation]
    returns with: [offsets[x]], for [x] in [[0, n]], the number of
    incidences of the vertices below [x] (so [offsets[n]] is the total);
    [edgeIds] and [neighbors] holding, vertex by vertex in rising order and
    within a vertex in the order of its adjacency list, the guarded lookup
    of each arc (its edge identity, or [-1]) and [gp_GetNeighbor] of the
    arc; and the rest of each buffer as it was.  The cells of vertex [x]
    are the [length (adj x)] cells from [offsets[x]] on. *)
Theorem rotation_written (fuel : nat) (s : Session) (g : graph)
    (adj : Z -> list Z) (offsets edgeIds neighbors : list Z) :
  g_graph s = Some g ->
  g_lastEmbedResult s = OK ->
  map_allocated s ->
  0 <= g_vertexCount s ->
  (forall x, 0 <= x < g_vertexCount s ->
     arc_chain g (gp_GetFirstArc g x) (adj x) /\ (length (adj x) < fuel)%nat) ->
  let n := Z.to_nat (g_vertexCount s) in
  let arcs := rotation_prefix adj n in
  (n < length offsets)%nat ->
  (length arcs <= length edgeIds)%nat ->
  (length arcs <= length neighbors)%nat ->
  tl_planarity_write_rotation fuel s offsets edgeIds neighbors
  = Done (map (offset_at adj) (seq 0 (S n)) ++ drop (S n) offsets,
          map (edge_id_of s) arcs ++ drop (length arcs) edgeIds,
          map (gp_GetNeighbor g) arcs ++ drop (length arcs) neighbors) /\
  (forall j, (j < n)%nat ->
     take (length (adj (Z.of_nat j))) (drop (Z.to_nat (offset_at adj j)) arcs)
     = adj (Z.of_nat j)).
Proof.
  intros Hg Hr Hmap Hn Hadj n arcs Hoff Hed Hnb. split.
  - unfold tl_planarity_write_rotation. rewrite Hg, Hr, Z.eqb_refl.
    cbn [negb]. fold n.
    pose proof (write_rotation_loop_chain fuel s g adj n n 0 offsets edgeIds
                  neighbors Hmap eq_refl) as Hloop.
    change (offset_at adj 0) with 0 in Hloop.
    change (rotation_prefix adj 0) with (@nil Z) in Hloop.
    cbn [seq map app length] in Hloop.
    change (Z.of_nat 0) with 0 in Hloop. fold arcs in Hloop.
    rewrite Hloop; try (simpl; lia).
    + cbn [mbind result_bind rot_cursor rot_edgeIds rot_neighbors].
      replace (g_vertexCount s)
        with (Z.of_nat (length (map (offset_at adj) (seq 0 n)))) at 1
        by (rewrite length_map, length_seq; lia).
      rewrite store_next.
      * cbn [mbind result_bind]. rewrite drop_drop, Nat.sub_0_r.
        rewrite seq_S, map_app. simpl.
        replace (n + 1)%nat with (S n) by lia. reflexivity.
      * intros Hnil. apply (f_equal length) in Hnil.
        rewrite length_drop in Hnil. simpl in Hnil. lia.
    + intros x Hx. apply Hadj. lia.
  - intros j Hj. destruct (rotation_prefix_split adj j n Hj) as [rest Hsplit].
    unfold arcs. rewrite Hsplit. unfold offset_at. rewrite Nat2Z.id.
    rewrite drop_app_length, take_app_length. reflexivity.
Qed.

End Rotation.

(** ** Counting incidences *)

Lemma NoDup_zrange (k : nat) (i : Z) : NoDup (zrange k i).
Proof.
  revert i. induction k as [|k IH]; intros i; simpl; [constructor|].
  apply NoDup_cons. split; [|apply IH].
  rewrite elem_of_zrange. lia.
Qed.

Lemma length_concat_map_app (a b : Z -> list Z) (vs : list Z) :
  length (concat (map (fun x => a x ++ b x) vs))
  = (length (concat (map a vs)) + length (concat (map b vs)))%nat.
Proof.
  induction vs as [|x vs IH]; simpl; [reflexivity|].
  rewrite !length_app, IH. lia.
Qed.

Lemma length_concat_map_one (a b : Z) (vs : list Z) :
  NoDup vs -> a ∈ vs ->
  length (concat (map (fun x => if decide (a = x) then [b] else []) vs)) = 1%nat.
Proof.
  induction 1 as [|x vs Hx Hnd IH]; intros Ha.
  - apply elem_of_nil in Ha. contradiction.
  - simpl. rewrite length_app. destruct (decide (a = x)) as [->|Hne].
    + simpl. f_equal.
      clear IH Ha Hnd. induction vs as [|y vs IH]; simpl; [reflexivity|].
      rewrite decide_False by (intros ->; apply Hx; left).
      simpl. apply IH. intros Hin. apply Hx. right. exact Hin.
    + simpl. apply IH. apply elem_of_cons in Ha as [Ha|Ha]; [contradiction|exact Ha].
Qed.

Lemma handshake_edges (u v : list Z) (vs es : list Z) :
  NoDup vs ->
  (forall e, e ∈ es -> int_at u e ∈ vs /\ int_at v e ∈ vs) ->
  length (concat (map (fun x => flat_map (fun e =>
            (if decide (int_at u e = x) then [int_at v e] else []) ++
            (if decide (int_at v e = x) then [int_at u e] else [])) es) vs))
  = (2 * length es)%nat.
Proof.
  intros Hnd. induction es as [|e es IH]; intros Hes.
  - simpl. clear Hnd Hes. induction vs as [|x vs IHvs]; simpl; auto.
  - cbn [flat_map].
    rewrite (length_concat_map_app
               (fun x => (if decide (int_at u e = x) then [int_at v e] else []) ++
                         (if decide (int_at v e = x) then [int_at u e] else []))).
    rewrite (length_concat_map_app
               (fun x => if decide (int_at u e = x) then [int_at v e] else [])
               (fun x => if decide (int_at v e = x) then [int_at u e] else [])).
    destruct (Hes e) as [Hu Hv]; [left|].
    rewrite !length_concat_map_one by assumption.
    rewrite IH by (intros e' He'; apply Hes; right; exact He').
    simpl. lia.
Qed.

(** Every edge with both endpoints among the vertices is listed at two
    places of the input adjacency. *)
Lemma handshake (n m : Z) (u v : list Z) :
  (forall e, 0 <= e < m -> 0 <= int_at u e < n /\ 0 <= int_at v e < n) ->
  length (concat (map (input_neighbors m u v) (zrange (Z.to_nat n) 0)))
  = (2 * Z.to_nat m)%nat.
Proof.
  intros Hends. unfold input_neighbors.
  rewrite handshake_edges; [rewrite length_zrange; reflexivity|apply NoDup_zrange|].
  intros e He. apply elem_of_zrange in He. rewrite !elem_of_zrange.
  destruct (Hends e); lia.
Qed.

Lemma length_rotation_prefix_perm (adj adj' : Z -> list Z) (j : nat) :
  (forall x, 0 <= x < Z.of_nat j -> length (adj x) = length (adj' x)) ->
  length (rotation_prefix adj j) = length (concat (map adj' (zrange j 0))).
Proof.
  intros Hlen. fold (rotation_prefix adj' j).
  induction j as [|j IH]; [reflexivity|].
  rewrite !rotation_prefix_S, !length_app.
  rewrite IH by (intros x Hx; apply Hlen; lia).
  rewrite Hlen by lia. reflexivity.
Qed.

Section RotationSize.
Context {L : GraphLib}.

(** A run that does not return [NOTOK] went through the decision procedure:
    its session holds the graph, the allocated arc map, the counts of the
    input and the result it returns. *)
Lemma run_decided h n m u v embedFlags (s0 s : Session) (r : Z) :
  tl_planarity_run h n m u v embedFlags s0 = (s, r) ->
  r <> NOTOK ->
  0 < n /\ 0 <= m /\
  g_vertexCount s = n /\ g_edgeCount s = m /\ g_lastEmbedResult s = r /\
  g_graph s <> None /\ map_allocated s.
Proof.
  unfold tl_planarity_run.
  destruct (Z.leb_spec n 0); [intros [= <- <-]; congruence|].
  destruct (Z.ltb_spec m 0); [intros [= <- <-]; congruence|].
  destruct gp_New as [g0|]; [|intros [= <- <-]; congruence].
  destruct (gp_EnsureArcCapacity g0 _) as [g1 rc1].
  destruct (negb (rc1 =? OK)); [intros [= <- <-]; congruence|].
  destruct (gp_InitGraph g1 n) as [g2 rc2].
  destruct (negb (rc2 =? OK)); [intros [= <- <-]; congruence|].
  destruct (negb (malloc_ok h _)); [intros [= <- <-]; congruence|].
  destruct (add_edges _ 0 g2 u v) as [g3 added].
  destruct (negb added); [intros [= <- <-]; congruence|].
  destruct (negb (calloc_ok h m)); [intros [= <- <-]; congruence|].
  destruct (gp_Embed g3 embedFlags) as [g4 r'] eqn:Hembed.
  intros Hrun Hr.
  injection Hrun as <- <-. simpl.
  repeat split; try lia; try congruence.
  unfold map_allocated. simpl. eexists. split; [reflexivity|].
  rewrite length_build_arc_map, length_fill_unmapped. apply length_replicate.
Qed.

(** C3.  When a run returns [OK] (which differs from [NOTOK]), every input
    endpoint is a vertex, and the embedded graph meets the contract of the
    decision procedure (the adjacency list of every vertex lists its input
    neighbours, as a multiset), then [n >= 1], [m >= 0] and
    [tl_planarity_rotation_size] returns [2 * m] once the fuel outlasts
    every adjacency list.  The premise that no two edges join the same pair
    is not needed. *)
Theorem rotation_size_twice_edges (fuel : nat) (h : Heap) (n m : Z)
    (u v : list Z) (embedFlags : Z) (s0 s : Session) (g : graph)
    (adj : Z -> list Z) :
  OK <> NOTOK ->
  tl_planarity_run h n m u v embedFlags s0 = (s, OK) ->
  g_graph s = Some g ->
  embedding_contract g n m u v adj ->
  (forall e, 0 <= e < m -> 0 <= int_at u e < n /\ 0 <= int_at v e < n) ->
  (forall x, 0 <= x < n -> (length (adj x) < fuel)%nat) ->
  1 <= n /\ 0 <= m /\ tl_planarity_rotation_size fuel s = Done (2 * m).
Proof.
  intros Hok Hrun Hg Hcontract Hends Hfuel.
  destruct (run_decided h n m u v embedFlags s0 s OK Hrun Hok)
    as (Hn & Hm & Hvc & Hec & Hres & _ & _).
  split; [lia|]. split; [lia|].
  rewrite (rotation_size_chain fuel s g adj Hg Hres).
  - f_equal. unfold offset_at. rewrite Hvc.
    rewrite (length_rotation_prefix_perm adj (input_neighbors m u v)).
    + rewrite (handshake n m u v Hends). lia.
    + intros x Hx. destruct (Hcontract x) as [_ Hperm]; [lia|].
      apply Permutation_length in Hperm. rewrite length_map in Hperm. exact Hperm.
  - rewrite Hvc. intros x Hx. split; [apply Hcontract; lia|apply Hfuel; lia].
Qed.

End RotationSize.

(** ** What a failed run leaves *)

Section RunFailure.
Context {L : GraphLib}.

(** C2 (amended).  When [n <= 0] or [m < 0] the run returns [NOTOK] and
    leaves the cleared session.  On every other path the session keeps the
    counts [n] and [m] of the input, and the graph once [gp_New] has
    returned one: a later failure does not clear it.  When the run returns
    neither [OK] nor [NONEMBEDDABLE] (both different from 0), the outcome it
    records is neither of them, so the gates of every extraction operation
    stay shut. *)
Theorem run_failure_state (h : Heap) (n m : Z) (u v : list Z) (embedFlags : Z)
    (s0 : Session) :
  let s := fst (tl_planarity_run h n m u v embedFlags s0) in
  let r := snd (tl_planarity_run h n m u v embedFlags s0) in
  (n <= 0 \/ m < 0 -> r = NOTOK /\ s = initial_session) /\
  (0 < n -> 0 <= m ->
     g_vertexCount s = n /\ g_edgeCount s = m /\
     (gp_New <> None -> g_graph s <> None)) /\
  (OK <> 0 -> NONEMBEDDABLE <> 0 ->
   r <> OK -> r <> NONEMBEDDABLE ->
     g_lastEmbedResult s <> OK /\ g_lastEmbedResult s <> NONEMBEDDABLE).
Proof.
  unfold tl_planarity_run.
  destruct (Z.leb_spec n 0);
    [simpl; repeat split; intros; try reflexivity; try lia; congruence|].
  destruct (Z.ltb_spec m 0);
    [simpl; repeat split; intros; try reflexivity; try lia; congruence|].
  destruct gp_New as [g0|];
    [|simpl; repeat split; intros; try reflexivity; try lia; congruence].
  destruct (gp_EnsureArcCapacity g0 _) as [g1 rc1].
  destruct (negb (rc1 =? OK));
    [simpl; repeat split; intros; try reflexivity; try lia; congruence|].
  destruct (gp_InitGraph g1 n) as [g2 rc2].
  destruct (negb (rc2 =? OK));
    [simpl; repeat split; intros; try reflexivity; try lia; congruence|].
  destruct (negb (malloc_ok h _));
    [simpl; repeat split; intros; try reflexivity; try lia; congruence|].
  destruct (add_edges _ 0 g2 u v) as [g3 added].
  destruct (negb added);
    [simpl; repeat split; intros; try reflexivity; try lia; congruence|].
  destruct (negb (calloc_ok h m));
    [simpl; repeat split; intros; try reflexivity; try lia; congruence|].
  destruct (gp_Embed g3 embedFlags) as [g4 r].
  simpl; repeat split; intros; try reflexivity; try lia; congruence.
Qed.

End RunFailure.

(** ** The list-based store meets the arc encoding *)

Lemma lxor_1_involutive (a : Z) : Z.lxor (Z.lxor a 1) 1 = a.
Proof. rewrite Z.lxor_assoc. simpl. apply Z.lxor_0_r. Qed.

Lemma lxor_1_neighbour (a : Z) :
  0 <= a -> Z.lxor a 1 = if Z.even a then a + 1 else a - 1.
Proof.
  intros Ha. destruct a as [|p|p]; [reflexivity| |lia].
  destruct p as [p|p|]; cbn; reflexivity || lia.
Qed.

Lemma lxor_1_in_map (size a : Z) :
  Z.even size = true -> 0 <= a < size -> 0 <= Z.lxor a 1 < size.
Proof.
  intros Hsize Ha. rewrite lxor_1_neighbour by lia.
  apply Z.even_spec in Hsize as [k ->].
  destruct (Z.even a) eqn:Ea.
  - apply Z.even_spec in Ea as [j ->]. lia.
  - assert (Z.odd a = true) as Ho by (rewrite <- Z.negb_even, Ea; reflexivity).
    apply Z.odd_spec in Ho as [j ->]. lia.
Qed.

(** ** The properties on sessions of the list-based store *)

Section Checked.
Import ListGraph Scenarios.

(** Close a goal between closed terms by evaluation. *)
Ltac by_compute :=
  vm_compute; repeat split;
  first [reflexivity | lia | discriminate | (intros ?; discriminate)].

Lemma triangle_map_allocated : map_allocated triangle.
Proof. eexists. split; vm_compute; reflexivity. Qed.

Lemma k5_map_allocated : map_allocated k5.
Proof. eexists. split; vm_compute; reflexivity. Qed.

Lemma triangle_chains (x : Z) :
  0 <= x < 3 ->
  @arc_chain accepting triangle_graph (@gp_GetFirstArc accepting triangle_graph x)
    (triangle_adj x).
Proof.
  intros Hx. assert (x = 0 \/ x = 1 \/ x = 2) as [->|[->| ->]] by lia;
    repeat first [ apply (@chain_end accepting); reflexivity
                 | apply (@chain_step accepting); [reflexivity|]
                 | progress vm_compute ].
Qed.

(** The scenarios of the interface, with the decisions scripted. *)
Example scenario_triangle :
  snd triangle_run = @OK accepting /\
  @tl_planarity_rotation_size accepting 4 triangle = Done 6 /\
  @tl_planarity_witness_edge_count accepting plenty triangle = Done 0.
Proof. repeat split. Qed.

Example scenario_k5 :
  g_lastEmbedResult k5 = @NONEMBEDDABLE k5_lib /\
  @tl_planarity_witness_type k5_lib k5 = 5 /\
  @tl_planarity_witness_edge_count k5_lib plenty k5 = Done 10 /\
  @tl_planarity_rotation_size k5_lib 4 k5 = Done 0.
Proof. repeat split. Qed.

Example scenario_invalid_input :
  @tl_planarity_run accepting plenty 0 0 [] [] 0 triangle
  = (initial_session, @NOTOK accepting).
Proof. reflexivity. Qed.

Example scenario_out_of_memory :
  let sr := @tl_planarity_run out_of_memory plenty 3 3 [0; 1; 2] [1; 2; 0] 0
              initial_session in
  snd sr = @NOTOK out_of_memory /\ g_graph (fst sr) = None /\
  g_vertexCount (fst sr) = 3 /\ g_edgeCount (fst sr) = 3.
Proof. repeat split. Qed.

Example scenario_decision_error :
  let sr := @tl_planarity_run erring plenty 3 3 [0; 1; 2] [1; 2; 0] 0
              initial_session in
  snd sr = @NOTOK erring /\ g_graph (fst sr) <> None /\
  @tl_planarity_rotation_size erring 4 (fst sr) = Done 0.
Proof. repeat split. vm_compute. discriminate. Qed.

(** C1, on the session a failed edge insertion leaves. *)
Lemma extraction_gated_witness :
  @tl_planarity_rotation_size accepting 4 (fst bad_endpoint_run) = Done 0 /\
  @tl_planarity_write_rotation accepting 4 (fst bad_endpoint_run)
    (zeros 3) (zeros 2) (zeros 2) = Done (zeros 3, zeros 2, zeros 2).
Proof.
  destruct (@extraction_gated accepting 4 plenty (fst bad_endpoint_run)
              (zeros 3) (zeros 2) (zeros 2) (zeros 2)) as (Hrot & _ & _).
  apply Hrot. left. by_compute.
Defined.

(** C2: a failed edge insertion returns [NOTOK] and leaves the graph, the
    arc map and the counts in the session. *)
Lemma run_failure_not_cleared :
  snd bad_endpoint_run = @NOTOK accepting /\
  fst bad_endpoint_run <> initial_session /\
  g_graph (fst bad_endpoint_run) <> None /\
  g_edgeIdByArc (fst bad_endpoint_run) <> None /\
  g_vertexCount (fst bad_endpoint_run) = 2 /\
  g_edgeCount (fst bad_endpoint_run) = 1.
Proof.
  split; [reflexivity|]. split.
  - intros H. apply (f_equal g_vertexCount) in H. vm_compute in H. discriminate.
  - repeat split; by_compute.
Qed.

(** C2 (amended), on the same run. *)
Lemma run_failure_state_witness :
  g_vertexCount (fst bad_endpoint_run) = 2 /\
  g_edgeCount (fst bad_endpoint_run) = 1 /\
  g_lastEmbedResult (fst bad_endpoint_run) <> @OK accepting /\
  g_lastEmbedResult (fst bad_endpoint_run) <> @NONEMBEDDABLE accepting.
Proof.
  destruct (@run_failure_state accepting plenty 2 1 [0] [7] 0 initial_session)
    as (_ & Hkeep & Hshut).
  destruct Hkeep as (Hn & Hm & _); [lia|lia|].
  destruct Hshut as (H1 & H2); [by_compute|by_compute|by_compute|by_compute|].
  repeat split; assumption.
Defined.

(** C3, on the triangle. *)
Lemma rotation_size_twice_edges_witness :
  1 <= 3 /\ 0 <= 3 /\ @tl_planarity_rotation_size accepting 4 triangle = Done (2 * 3).
Proof.
  apply (@rotation_size_twice_edges accepting 4 plenty 3 3 [0; 1; 2] [1; 2; 0] 0
           initial_session triangle triangle_graph triangle_adj).
  - by_compute.
  - vm_compute. reflexivity.
  - vm_compute. reflexivity.
  - intros x Hx. split; [apply triangle_chains; exact Hx|].
    assert (x = 0 \/ x = 1 \/ x = 2) as [->|[->| ->]] by lia;
      vm_compute; apply perm_swap.
  - intros e He. assert (e = 0 \/ e = 1 \/ e = 2) as [->|[->| ->]] by lia;
      by_compute.
  - intros x Hx. assert (x = 0 \/ x = 1 \/ x = 2) as [->|[->| ->]] by lia;
      by_compute.
Defined.

(** C4, on the triangle as inserted. *)
Lemma arc_map_matching_witness :
  let amap := @build_arc_map accepting triangle_graph 3 [0; 1; 2] [1; 2; 0] 18
                (replicate 18 (-1)) in
  (forall a, map_lookup 18 amap a = map_lookup 18 amap (Z.lxor a 1)) /\
  (forall a b, map_lookup 18 amap a <> -1 ->
     map_lookup 18 amap b = map_lookup 18 amap a -> b = a \/ b = Z.lxor a 1) /\
  @first_unclaimed_match accepting triangle_graph 3 [0; 1; 2] [1; 2; 0] 18 amap 2
    (map_lookup 18 amap 2).
Proof.
  destruct (@arc_map_matching accepting triangle_graph 3 [0; 1; 2] [1; 2; 0] 18)
    as (Htwin & Hone & Hfirst & _).
  - intros a. apply lxor_1_involutive.
  - intros a. apply lxor_1_in_map. reflexivity.
  - by_compute.
  - by_compute.
  - split; [exact Htwin|]. split; [exact Hone|].
    apply Hfirst; [split; by_compute|split; by_compute].
Defined.

(** C5, on the rejected complete graph. *)
Lemma witness_type_classification_witness :
  @tl_planarity_witness_type k5_lib k5 = 5.
Proof.
  destruct (@witness_type_classification k5_lib k5) as (_ & Hclass & _).
  destruct (Hclass (default lg_empty (g_graph k5))) as (_ & H5 & _);
    [vm_compute; reflexivity|vm_compute; reflexivity|].
  apply H5.
  - rewrite <- (@k33Mask_present k5_lib). vm_compute. intros H. apply H. reflexivity.
  - exists 4. split; reflexivity.
Defined.

(** C6, on the triangle. *)
Lemma rotation_written_witness :
  @tl_planarity_write_rotation accepting 4 triangle (zeros 4) (zeros 6) (zeros 6)
  = Done ([0; 2; 4; 6], [2; 0; 1; 0; 2; 1], [2; 1; 2; 0; 0; 1]).
Proof.
  destruct (@rotation_written accepting 4 triangle triangle_graph triangle_adj
              (zeros 4) (zeros 6) (zeros 6)) as [Hw _].
  - vm_compute. reflexivity.
  - vm_compute. reflexivity.
  - apply triangle_map_allocated.
  - by_compute.
  - intros x Hx. change (g_vertexCount triangle) with 3 in Hx.
    split; [apply triangle_chains; exact Hx|].
    assert (x = 0 \/ x = 1 \/ x = 2) as [->|[->| ->]] by lia; by_compute.
  - vm_compute. lia.
  - vm_compute. lia.
  - vm_compute. lia.
  - exact Hw.
Defined.

(** C7: on the rejected complete graph every one of the ten edges is mapped
    from an in-use arc, yet when [calloc] fails the writer emits none and
    the count is 0. *)
Lemma witness_edges_lost_without_scratch :
  reachable k5 /\
  g_lastEmbedResult k5 = @NONEMBEDDABLE k5_lib /\
  @witness_edge_ids k5_lib k5 (default lg_empty (g_graph k5))
    = [0; 1; 2; 3; 4; 5; 6; 7; 8; 9] /\
  @tl_planarity_write_witness_edges k5_lib exhausted k5 (zeros 10)
    = Done (zeros 10) /\
  @tl_planarity_witness_edge_count k5_lib exhausted k5 = Done 0.
Proof.
  split; [apply (@reach_run k5_lib), (@reach_init k5_lib)|].
  repeat split; vm_compute; reflexivity.
Qed.

(** C7 (amended), on the rejected complete graph. *)
Lemma witness_edges_emitted_witness :
  @tl_planarity_write_witness_edges k5_lib plenty k5 (zeros 10)
    = Done [0; 1; 2; 3; 4; 5; 6; 7; 8; 9] /\
  @tl_planarity_witness_edge_count k5_lib plenty k5 = Done 10 /\
  @tl_planarity_write_witness_edges k5_lib exhausted k5 (zeros 10)
    = Done (zeros 10).
Proof.
  destruct (@witness_edges_emitted k5_lib plenty k5
              (default lg_empty (g_graph k5)) (zeros 10))
    as (Hgot & _).
  - vm_compute. reflexivity.
  - vm_compute. reflexivity.
  - apply k5_map_allocated.
  - vm_compute. lia.
  - destruct Hgot as [Hw Hc]; [reflexivity|].
    destruct (@witness_edges_emitted k5_lib exhausted k5
                (default lg_empty (g_graph k5)) (zeros 10))
      as (_ & Hnone & _).
    + vm_compute. reflexivity.
    + vm_compute. reflexivity.
    + apply k5_map_allocated.
    + vm_compute. lia.
    + destruct Hnone as [Hn _]; [reflexivity|].
      split; [exact Hw|]. split; [exact Hc|exact Hn].
Defined.

(** C8, on the rejected complete graph. *)
Lemma witness_vertices_emitted_witness :
  @tl_planarity_write_witness_vertices k5_lib k5 (zeros 6)
    = Done [0; 1; 2; 3; 4; 0] /\
  @tl_planarity_witness_vertex_count k5_lib k5 = 5.
Proof.
  destruct (@witness_vertices_emitted k5_lib k5
              (default lg_empty (g_graph k5)) (zeros 6))
    as (Hw & Hc & _).
  - vm_compute. reflexivity.
  - vm_compute. reflexivity.
  - vm_compute. lia.
  - split; [exact Hw|exact Hc].
Defined.

(** C10, on the rejected complete graph. *)
Lemma arc_lookup_total_witness :
  (forall arc, @arc_edge_id k5_lib k5 arc = Done (@edge_id_of k5_lib k5 arc)) /\
  @arc_edge_id k5_lib k5 30 = Done (-1).
Proof.
  destruct (@arc_lookup_total k5_lib plenty k5) as (Hout & Hin & _).
  split.
  - apply Hin; [apply (@reach_run k5_lib), (@reach_init k5_lib)|by_compute].
  - apply Hout. vm_compute. intros [_ H]. discriminate H.
Defined.

End Checked.

(** * Further properties of the adapter *)

(** ** Sessions a caller can reach *)

Section SessionInvariant.
Context {L : GraphLib}.

Lemma run_session_invariant h n m u v embedFlags (s0 : Session) :
  let s := fst (tl_planarity_run h n m u v embedFlags s0) in
  0 <= g_vertexCount s /\ 0 <= g_edgeCount s /\
  (g_graph s = None ->
     g_edgeIdByArc s = None /\ g_edgeIdByArcSize s = 0 /\
     g_lastEmbedResult s = 0) /\
  (g_graph s <> None -> 0 < g_vertexCount s) /\
  (forall a, g_edgeIdByArc s = Some a ->
     g_graph s <> None /\ length a = Z.to_nat (g_edgeIdByArcSize s)).
Proof.
  unfold tl_planarity_run.
  destruct (Z.leb_spec n 0);
    [simpl; repeat split; intros; try lia; congruence|].
  destruct (Z.ltb_spec m 0);
    [simpl; repeat split; intros; try lia; congruence|].
  destruct gp_New as [g0|];
    [|simpl; repeat split; intros; try lia; congruence].
  destruct (gp_EnsureArcCapacity g0 _) as [g1 rc1].
  destruct (negb (rc1 =? OK));
    [simpl; repeat split; intros; try lia; congruence|].
  destruct (gp_InitGraph g1 n) as [g2 rc2].
  destruct (negb (rc2 =? OK));
    [simpl; repeat split; intros; try lia; congruence|].
  destruct (negb (malloc_ok h _));
    [simpl; repeat split; intros; try lia; congruence|].
  destruct (add_edges _ 0 g2 u v) as [g3 added].
  destruct (negb added).
  { simpl; repeat split; intros; try lia; try congruence.
    injection H1 as <-. rewrite length_fill_unmapped. apply length_replicate. }
  destruct (negb (calloc_ok h m)).
  { simpl; repeat split; intros; try lia; try congruence.
    injection H1 as <-. rewrite length_fill_unmapped. apply length_replicate. }
  destruct (gp_Embed g3 embedFlags) as [g4 r].
  simpl; repeat split; intros; try lia; try congruence.
  injection H1 as <-.
  rewrite length_build_arc_map, length_fill_unmapped. apply length_replicate.
Qed.

(** X1.  In every session a caller can reach: the two counts are not
    negative; without a graph there is no arc map, the recorded size and
    the recorded outcome are 0; with a graph the vertex count is positive;
    and an arc map comes with a graph, has as many cells as the session
    records, and holds in every cell the sentinel or an edge identity in
    [[0, m)]. *)
Theorem reachable_session_invariant (s : Session) :
  reachable s ->
  0 <= g_vertexCount s /\ 0 <= g_edgeCount s /\
  (g_graph s = None ->
     g_edgeIdByArc s = None /\ g_edgeIdByArcSize s = 0 /\
     g_lastEmbedResult s = 0) /\
  (g_graph s <> None -> 0 < g_vertexCount s) /\
  (forall a, g_edgeIdByArc s = Some a ->
     g_graph s <> None /\ length a = Z.to_nat (g_edgeIdByArcSize s) /\
     Forall (fun e => e = -1 \/ 0 <= e < g_edgeCount s) a).
Proof.
  intros Hr. pose proof (reachable_map_values s) as Hvals.
  destruct Hr as [|h n m u v fl s0 Hs0|s0 Hs0].
  - simpl. repeat split; intros; try lia; congruence.
  - pose proof (run_session_invariant h n m u v fl s0) as (Hn & Hm & Hno & Hg & Hmap).
    repeat split; try assumption.
    + apply (Hno H).
    + apply (Hno H).
    + apply (Hno H).
    + apply (Hmap a H).
    + apply (Hmap a H).
    + apply Hvals; [apply reach_run; exact Hs0|exact H].
  - simpl. repeat split; intros; try lia; congruence.
Qed.

(** What a run records beside what it returns. *)
Lemma run_recorded_outcome h n m u v embedFlags (s0 : Session) :
  let s := fst (tl_planarity_run h n m u v embedFlags s0) in
  let r := snd (tl_planarity_run h n m u v embedFlags s0) in
  g_lastEmbedResult s = r \/ (r = NOTOK /\ g_lastEmbedResult s = 0).
Proof.
  unfold tl_planarity_run.
  destruct (n <=? 0); [simpl; auto|].
  destruct (m <? 0); [simpl; auto|].
  destruct gp_New as [g0|]; [|simpl; auto].
  destruct (gp_EnsureArcCapacity g0 _) as [g1 rc1].
  destruct (negb (rc1 =? OK)); [simpl; auto|].
  destruct (gp_InitGraph g1 n) as [g2 rc2].
  destruct (negb (rc2 =? OK)); [simpl; auto|].
  destruct (negb (malloc_ok h _)); [simpl; auto|].
  destruct (add_edges _ 0 g2 u v) as [g3 added].
  destruct (negb added); [simpl; auto|].
  destruct (negb (calloc_ok h m)); [simpl; auto|].
  destruct (gp_Embed g3 embedFlags) as [g4 r]. simpl. auto.
Qed.

(** X2.  A run returns [NOTOK] or what the decision procedure answered on
    the flags it was given; and the outcome the session records is the
    status returned, except on the failure paths before the edges are
    inserted and on a failed scratch allocation, where [NOTOK] is returned
    and 0 stays recorded. *)
Theorem run_returns_recorded h n m u v embedFlags (s0 : Session) :
  let s := fst (tl_planarity_run h n m u v embedFlags s0) in
  let r := snd (tl_planarity_run h n m u v embedFlags s0) in
  (r = NOTOK \/ exists g g', gp_Embed g embedFlags = (g', r)) /\
  (g_lastEmbedResult s = r \/ (r = NOTOK /\ g_lastEmbedResult s = 0)).
Proof.
  split; [|apply run_recorded_outcome].
  unfold tl_planarity_run.
  destruct (n <=? 0); [simpl; auto|].
  destruct (m <? 0); [simpl; auto|].
  destruct gp_New as [g0|]; [|simpl; auto].
  destruct (gp_EnsureArcCapacity g0 _) as [g1 rc1].
  destruct (negb (rc1 =? OK)); [simpl; auto|].
  destruct (gp_InitGraph g1 n) as [g2 rc2].
  destruct (negb (rc2 =? OK)); [simpl; auto|].
  destruct (negb (malloc_ok h _)); [simpl; auto|].
  destruct (add_edges _ 0 g2 u v) as [g3 added].
  destruct (negb added); [simpl; auto|].
  destruct (negb (calloc_ok h m)); [simpl; auto|].
  destruct (gp_Embed g3 embedFlags) as [g4 r] eqn:Hembed. simpl.
  right. exists g3, g4. exact Hembed.
Qed.

(** X3.  After a run that returns neither [OK] nor [NONEMBEDDABLE] (both
    different from 0), every extraction operation is empty on the session
    it leaves: the counts and the classification are 0 and the writers
    return with the buffers as they were. *)
Theorem failed_run_extraction_empty (fuel : nat) (h h' : Heap) (n m : Z)
    (u v : list Z) (embedFlags : Z) (s0 : Session)
    (offsets edgeIds neighbors buf : list Z) :
  OK <> 0 -> NONEMBEDDABLE <> 0 ->
  let s := fst (tl_planarity_run h n m u v embedFlags s0) in
  let r := snd (tl_planarity_run h n m u v embedFlags s0) in
  r <> OK -> r <> NONEMBEDDABLE ->
  tl_planarity_rotation_size fuel s = Done 0 /\
  tl_planarity_write_rotation fuel s offsets edgeIds neighbors
    = Done (offsets, edgeIds, neighbors) /\
  tl_planarity_witness_edge_count h' s = Done 0 /\
  tl_planarity_witness_vertex_count s = 0 /\
  tl_planarity_witness_type s = 0 /\
  tl_planarity_write_witness_edges h' s buf = Done buf /\
  tl_planarity_write_witness_vertices s buf = Done buf.
Proof.
  intros Hok Hne s r Hr1 Hr2.
  assert (g_lastEmbedResult s <> OK /\ g_lastEmbedResult s <> NONEMBEDDABLE)
    as [H1 H2].
  { destruct (run_recorded_outcome h n m u v embedFlags s0) as [Hrec|[_ Hrec]];
      fold s in Hrec; fold r in Hrec; rewrite Hrec; auto. }
  unfold tl_planarity_rotation_size, tl_planarity_write_rotation,
    tl_planarity_witness_edge_count, tl_planarity_witness_vertex_count,
    tl_planarity_witness_type, tl_planarity_write_witness_edges,
    tl_planarity_write_witness_vertices.
  destruct (g_graph s); [|auto 8].
  destruct (Z.eqb_spec (g_lastEmbedResult s) OK); [contradiction|].
  destruct (Z.eqb_spec (g_lastEmbedResult s) NONEMBEDDABLE); [contradiction|].
  simpl. auto 8.
Qed.

End SessionInvariant.

(** ** How large the witness can be *)

Lemma flags_on_replicate (k : nat) : flags_on (replicate k false) = 0%nat.
Proof.
  unfold flags_on. induction k as [|k IH]; [reflexivity|].
  simpl. rewrite filter_cons_False by discriminate. exact IH.
Qed.

Lemma flags_on_le (seen : list bool) : (flags_on seen <= length seen)%nat.
Proof. apply length_filter. Qed.

Lemma flags_on_set (seen : list bool) (e : Z) :
  0 <= e < Z.of_nat (length seen) ->
  flag_at seen e = false ->
  flags_on (set_at seen e true) = S (flags_on seen).
Proof.
  intros He Hoff. unfold flag_at in Hoff. unfold set_at, flags_on.
  destruct (seen !! Z.to_nat e) as [b|] eqn:Hlk.
  - simpl in Hoff. subst b.
    rewrite <- (take_drop_middle seen (Z.to_nat e) false Hlk) at 2.
    rewrite insert_take_drop by lia.
    rewrite !filter_app, !filter_cons, !length_app.
    rewrite decide_True by reflexivity. rewrite decide_False by discriminate.
    simpl. lia.
  - apply lookup_ge_None in Hlk. lia.
Qed.

Section WitnessBounds.
Context {L : GraphLib}.

Lemma count_witness_arcs_flags (s : Session) (g : graph) (k : nat) (arc : Z)
    (seen seen' : list bool) (count count' : Z) :
  length seen = Z.to_nat (g_edgeCount s) ->
  count_witness_arcs k arc s g (seen, count) = Done (seen', count') ->
  length seen' = length seen /\
  count' - count = Z.of_nat (flags_on seen') - Z.of_nat (flags_on seen).
Proof.
  revert arc seen count. induction k as [|k IH]; intros arc seen count Hlen; simpl.
  - intros [= <- <-]. split; [reflexivity|lia].
  - destruct (negb (gp_EdgeInUse g arc)); simpl; [apply IH; exact Hlen|].
    destruct (arc_edge_id s arc) as [e| |]; simpl; try discriminate.
    unfold fresh_edge.
    destruct ((0 <=? e) && (e <? g_edgeCount s)) eqn:Ein; simpl;
      [|apply IH; exact Hlen].
    apply andb_true_iff in Ein as [E1 E2].
    apply Z.leb_le in E1. apply Z.ltb_lt in E2.
    destruct (flag_at seen e) eqn:Eseen; simpl; [apply IH; exact Hlen|].
    intros Hrun. apply IH in Hrun as [Hl Hc];
      [|rewrite length_set_at; exact Hlen].
    rewrite length_set_at in Hl. split; [exact Hl|].
    rewrite flags_on_set in Hc by (exact Eseen || lia). lia.
Qed.

(** X4.  Whenever [tl_planarity_witness_edge_count] returns, its value lies
    between 0 and the edge count of the session: a buffer of [m] cells
    always holds the witness edges. *)
Theorem witness_edge_count_bound (h : Heap) (s : Session) (c : Z) :
  tl_planarity_witness_edge_count h s = Done c ->
  0 <= c <= Z.max 0 (g_edgeCount s).
Proof.
  unfold tl_planarity_witness_edge_count.
  destruct (g_graph s) as [g|]; [|intros [= <-]; lia].
  destruct (negb (_ =? NONEMBEDDABLE)); [intros [= <-]; lia|].
  destruct (negb (calloc_ok h _)); [intros [= <-]; lia|].
  destruct (count_witness_arcs _ _ s g _) as [[seen' c']| |] eqn:Hrun; simpl;
    try discriminate.
  intros [= <-].
  apply count_witness_arcs_flags in Hrun as [Hl Hc]; [|apply length_replicate].
  rewrite flags_on_replicate in Hc. rewrite length_replicate in Hl.
  pose proof (flags_on_le seen'). lia.
Qed.

(** X5.  [tl_planarity_witness_vertex_count] lies between 0 and the vertex
    count of the session: a buffer of [n] cells always holds the witness
    vertices. *)
Theorem witness_vertex_count_bound (s : Session) :
  0 <= tl_planarity_witness_vertex_count s <= Z.max 0 (g_vertexCount s).
Proof.
  unfold tl_planarity_witness_vertex_count.
  destruct (g_graph s) as [g|]; [|lia].
  destruct (negb (_ =? NONEMBEDDABLE)); [lia|].
  rewrite count_witness_vertices_spec.
  pose proof (length_filter (fun y => gp_VirtualVertexInUse g y = true)
                (zrange (Z.to_nat (g_vertexCount s)) 0)) as Hle.
  rewrite length_zrange in Hle. lia.
Qed.

End WitnessBounds.

(** ** The matching and the shape of the input *)

Section MatchingInput.
Context {L : GraphLib}.

Lemma find_match_same_pairs (u v u' v' : list Z) (m : Z) (k : nat) (e : Z)
    (used : list bool) (a b : Z) :
  (forall i, 0 <= i < m ->
     (int_at u i = int_at u' i /\ int_at v i = int_at v' i) \/
     (int_at u i = int_at v' i /\ int_at v i = int_at u' i)) ->
  0 <= e -> e + Z.of_nat k <= m ->
  find_match k e used u v a b = find_match k e used u' v' a b.
Proof.
  intros Hpairs. revert e. induction k as [|k IH]; intros e He Hk; [reflexivity|].
  cbn [find_match]. rewrite IH by lia.
  destruct (flag_at used e); [reflexivity|].
  replace (((int_at u e =? a) && (int_at v e =? b))
           || ((int_at u e =? b) && (int_at v e =? a)))
    with (((int_at u' e =? a) && (int_at v' e =? b))
          || ((int_at u' e =? b) && (int_at v' e =? a))); [reflexivity|].
  destruct (Hpairs e) as [[-> ->]|[-> ->]]; [lia|reflexivity|].
  repeat match goal with
         | |- context [?x =? ?y] => destruct (x =? y)
         end; reflexivity.
Qed.

(** X6.  The matching sees the input edges as unordered pairs: two edge
    lists that give every edge the same two endpoints, in either order,
    leave the same arc map. *)
Theorem build_arc_map_unordered (g : graph) (m : Z) (u v u' v' : list Z)
    (size : Z) (amap : list Z) :
  (forall i, 0 <= i < m ->
     (int_at u i = int_at u' i /\ int_at v i = int_at v' i) \/
     (int_at u i = int_at v' i /\ int_at v i = int_at u' i)) ->
  build_arc_map g m u v size amap = build_arc_map g m u' v' size amap.
Proof.
  intros Hpairs. unfold build_arc_map. f_equal.
  assert (forall k arc st,
            match_arcs k arc g m u v size st = match_arcs k arc g m u' v' size st)
    as Hloop; [|apply Hloop].
  induction k as [|k IH]; intros arc st; [reflexivity|].
  cbn [match_arcs]. rewrite IH. f_equal.
  unfold match_arc. destruct st as [used amap0].
  destruct (Z.le_gt_cases 0 m) as [Hm|Hm].
  - rewrite (find_match_same_pairs u v u' v' m) by (exact Hpairs || lia).
    reflexivity.
  - replace (Z.to_nat m) with O by lia. reflexivity.
Qed.



Lemma map_lookup_record_cases (size : Z) (amap : list Z) (a t r x : Z) :
  length amap = Z.to_nat size ->
  map_lookup size (record_match size a t r amap) x = map_lookup size amap x \/
  ((x = a \/ x = t) /\ map_lookup size (record_match size a t r amap) x = r).
Proof.
  intros Hlen. unfold record_match, map_lookup.
  destruct ((0 <=? x) && (x <? size)) eqn:Ex; [|left; reflexivity].
  apply andb_true_iff in Ex as [E1 E2].
  apply Z.leb_le in E1. apply Z.ltb_lt in E2.
  destruct ((0 <=? a) && (a <? size)) eqn:Ea;
    destruct ((0 <=? t) && (t <? size)) eqn:Et;
    try (apply andb_true_iff in Ea as [Ea1 Ea2];
         apply Z.leb_le in Ea1; apply Z.ltb_lt in Ea2);
    try (apply andb_true_iff in Et as [Et1 Et2];
         apply Z.leb_le in Et1; apply Z.ltb_lt in Et2);
    rewrite ?int_at_set_at by (rewrite ?length_set_at; lia);
    repeat (destruct (decide _)); auto.
Qed.

(** X8.  Whatever the graph library does, the matching never spreads an
    edge identity over two arc pairs: for every identity there is one arc
    such that every cell of the map holding the identity is the cell of
    that arc or of its twin. *)
Theorem arc_map_edge_once (g : graph) (m : Z) (u v : list Z) (size : Z) :
  let amap := build_arc_map g m u v size (replicate (Z.to_nat size) (-1)) in
  forall e, e <> -1 ->
    exists c, forall x, map_lookup size amap x = e ->
      x = c \/ x = gp_GetTwinArc g c.
Proof.
  intros amap. unfold amap, build_arc_map.
  set (inv := fun st : list bool * list Z =>
         length (fst st) = Z.to_nat m /\ length (snd st) = Z.to_nat size /\
         (forall x, map_lookup size (snd st) x <> -1 ->
            0 <= map_lookup size (snd st) x < m /\
            flag_at (fst st) (map_lookup size (snd st) x) = true) /\
         (forall e, e <> -1 ->
            exists c, forall x, map_lookup size (snd st) x = e ->
              x = c \/ x = gp_GetTwinArc g c)).
  assert (Hstep : forall arc st, inv st -> inv (match_arc g m u v size arc st)).
  { intros arc [used am] (Hlu & Hla & Hflag & Hone). simpl in *.
    assert (Hkeep : inv (used, am))
      by exact (conj Hlu (conj Hla (conj Hflag Hone))).
    unfold match_arc.
    destruct (negb (gp_EdgeInUse g arc)); [exact Hkeep|].
    destruct (_ <? arc); [exact Hkeep|].
    destruct (find_match_spec u v (Z.to_nat m) 0 used
                (gp_GetNeighbor g (gp_GetTwinArc g arc)) (gp_GetNeighbor g arc))
      as [[Hrun _]|(r & Hrun & Hr & Hfree & _)]; [lia| |]; rewrite Hrun.
    - exact Hkeep.
    - destruct (Z.leb_spec 0 r); [|lia]. unfold inv. simpl.
      pose proof (map_lookup_record_cases size am arc (gp_GetTwinArc g arc) r)
        as Hcases.
      split; [|split; [|split]].
      + rewrite length_set_at. exact Hlu.
      + rewrite length_record_match. exact Hla.
      + intros x Hx. destruct (Hcases x Hla) as [Hsame|[_ Hnew]].
        * rewrite Hsame in *. destruct (Hflag x Hx) as [Hrange Hfl].
          split; [exact Hrange|].
          rewrite flag_at_set_at by lia.
          destruct (decide _); [reflexivity|exact Hfl].
        * rewrite Hnew. split; [lia|].
          rewrite flag_at_set_at by lia.
          rewrite decide_True; reflexivity.
      + intros e He. destruct (decide (e = r)) as [->|Hner].
        * exists arc. intros x Hx.
          destruct (Hcases x Hla) as [Hsame|[Hxa _]]; [|exact Hxa].
          exfalso. rewrite Hsame in Hx.
          destruct (Hflag x) as [_ Hfl]; [rewrite Hx; exact He|].
          rewrite Hx in Hfl. congruence.
        * destruct (Hone e He) as [c Hc]. exists c. intros x Hx.
          destruct (Hcases x Hla) as [Hsame|[_ Hnew]];
            [apply Hc; rewrite <- Hsame; exact Hx|congruence]. }
  assert (Hloop : forall k arc st, inv st -> inv (match_arcs k arc g m u v size st)).
  { induction k as [|k IH]; intros arc st Hst; [exact Hst|].
    cbn [match_arcs]. apply IH, Hstep, Hst. }
  assert (Hinit : inv (replicate (Z.to_nat m) false, replicate (Z.to_nat size) (-1))).
  { unfold inv. simpl. rewrite !length_replicate.
    split; [reflexivity|]. split; [reflexivity|]. split.
    - intros x Hx. rewrite map_lookup_replicate in Hx. congruence.
    - intros e He. exists 0. intros x Hx.
      rewrite map_lookup_replicate in Hx. congruence. }
  apply (Hloop (Z.to_nat (gp_EdgeInUseIndexBound g - gp_GetFirstEdge g))
           (gp_GetFirstEdge g)) in Hinit.
  destruct Hinit as (_ & _ & _ & Hone). exact Hone.
Qed.

End MatchingInput.

(** ** The rotation buffers, whatever the graph *)

Lemma store_inv (buf out : list Z) (i x : Z) :
  store buf i x = Done out ->
  0 <= i < Z.of_nat (length buf) /\ out = <[Z.to_nat i := x]> buf.
Proof.
  unfold store, set_at.
  destruct (Z.leb_spec 0 i); simpl; [|discriminate].
  destruct (Z.ltb_spec i (Z.of_nat (length buf))); simpl; [|discriminate].
  intros [= <-]. split; [lia|reflexivity].
Qed.

Section RotationBuffers.
Context {L : GraphLib}.

Lemma reachable_arc_edge_id (s : Session) (arc x : Z) :
  reachable s -> arc_edge_id s arc = Done x ->
  x = -1 \/ 0 <= x < g_edgeCount s.
Proof.
  intros Hr. unfold arc_edge_id, load.
  destruct ((0 <=? arc) && (arc <? g_edgeIdByArcSize s)); [|intros [= <-]; auto].
  destruct (g_edgeIdByArc s) as [a|] eqn:Hmap; [|discriminate].
  destruct ((0 <=? arc) && (arc <? Z.of_nat (length a))) eqn:E; [|discriminate].
  apply andb_true_iff in E as [E1 E2].
  apply Z.leb_le in E1. apply Z.ltb_lt in E2.
  intros [= <-].
  pose proof (reachable_map_values s a Hr Hmap) as Hall.
  rewrite Forall_forall in Hall. apply Hall.
  unfold int_at. destruct (a !! Z.to_nat arc) as [e|] eqn:Elk.
  - simpl. eapply list_elem_of_lookup_2. exact Elk.
  - apply lookup_ge_None in Elk. lia.
Qed.

Lemma write_arcs_facts (fuel : nat) (s : Session) (g : graph) (arc : Z)
    (o o' : rot_out) (total : Z) :
  write_arcs fuel s g arc o = Done o' ->
  count_arcs fuel g arc total = Done (total + (rot_cursor o' - rot_cursor o)) /\
  rot_cursor o <= rot_cursor o' /\
  length (rot_edgeIds o') = length (rot_edgeIds o) /\
  length (rot_neighbors o') = length (rot_neighbors o) /\
  (forall i x, rot_edgeIds o' !! i = Some x ->
     rot_edgeIds o !! i = Some x \/ exists a, arc_edge_id s a = Done x).
Proof.
  revert arc o total. induction fuel as [|fuel IH]; intros arc o total;
    [discriminate|].
  cbn [write_arcs count_arcs].
  destruct (gp_IsArc arc).
  - destruct (arc_edge_id s arc) as [e| |] eqn:He; simpl; try discriminate.
    destruct (store (rot_edgeIds o) (rot_cursor o) e) as [eds| |] eqn:Hse;
      simpl; try discriminate.
    destruct (store (rot_neighbors o) (rot_cursor o) (gp_GetNeighbor g arc))
      as [nbs| |] eqn:Hsn; simpl; try discriminate.
    apply store_inv in Hse as [Hce ->]. apply store_inv in Hsn as [Hcn ->].
    intros Hrun.
    apply (IH _ _ (total + 1)) in Hrun as (Hcount & Hcur & Hle & Hln & Hcells).
    simpl in *. rewrite length_insert in Hle, Hln.
    split; [rewrite Hcount; f_equal; lia|].
    split; [lia|]. split; [exact Hle|]. split; [exact Hln|].
    intros i x Hi. destruct (Hcells i x Hi) as [Hold|Hnew]; [|auto].
    apply list_lookup_insert_Some in Hold as [(_ & <- & _)|[_ Hold]]; eauto.
  - intros [= <-]. split; [f_equal; lia|]. split; [lia|]. auto.
Qed.

Lemma write_rotation_loop_buffers (fuel : nat) (s : Session) (g : graph)
    (k : nat) (v : Z) (offsets offsets' : list Z) (o o' : rot_out) (total : Z) :
  write_rotation_loop fuel s g k v offsets o = Done (offsets', o') ->
  rotation_size_loop fuel g k v total
    = Done (total + (rot_cursor o' - rot_cursor o)) /\
  rot_cursor o <= rot_cursor o' /\
  length offsets' = length offsets /\
  length (rot_edgeIds o') = length (rot_edgeIds o) /\
  length (rot_neighbors o') = length (rot_neighbors o) /\
  (forall i x, rot_edgeIds o' !! i = Some x ->
     rot_edgeIds o !! i = Some x \/ exists a, arc_edge_id s a = Done x).
Proof.
  revert v offsets o total. induction k as [|k IH]; intros v offsets o total.
  - simpl. intros [= <- <-]. split; [f_equal; lia|]. split; [lia|]. auto 6.
  - cbn [write_rotation_loop rotation_size_loop].
    destruct (store offsets v (rot_cursor o)) as [off1| |] eqn:Hso; simpl;
      try discriminate.
    apply store_inv in Hso as [_ ->].
    destruct (write_arcs fuel s g (gp_GetFirstArc g v) o) as [o1| |] eqn:Hw;
      simpl; try discriminate.
    apply (write_arcs_facts _ _ _ _ _ _ total) in Hw
      as (Hcount & Hcur & Hle & Hln & Hcells).
    intros Hrun.
    apply (IH _ _ _ (total + (rot_cursor o1 - rot_cursor o))) in Hrun
      as (Hsize & Hcur' & Hlo & Hle' & Hln' & Hcells').
    rewrite Hcount. simpl. rewrite length_insert in Hlo.
    split; [rewrite Hsize; f_equal; lia|]. split; [lia|].
    split; [exact Hlo|]. split; [congruence|]. split; [congruence|].
    intros i x Hi. destruct (Hcells' i x Hi) as [Hold|Hnew]; [|auto].
    apply (Hcells i x Hold).
Qed.

Lemma write_rotation_loop_offsets (fuel : nat) (s : Session) (g : graph)
    (k : nat) (v : Z) (offsets offsets' : list Z) (o o' : rot_out) :
  0 <= v ->
  write_rotation_loop fuel s g k v offsets o = Done (offsets', o') ->
  (forall i, (i < Z.to_nat v \/ Z.to_nat v + k <= i)%nat ->
     offsets' !! i = offsets !! i) /\
  (forall j c, (Z.to_nat v <= j < Z.to_nat v + k)%nat ->
     offsets' !! j = Some c -> rot_cursor o <= c <= rot_cursor o') /\
  (forall j j' c c', (Z.to_nat v <= j)%nat -> (j <= j')%nat ->
     (j' < Z.to_nat v + k)%nat ->
     offsets' !! j = Some c -> offsets' !! j' = Some c' -> c <= c') /\
  ((0 < k)%nat -> offsets' !! Z.to_nat v = Some (rot_cursor o)).
Proof.
  revert v offsets o. induction k as [|k IH]; intros v offsets o Hv.
  - simpl. intros [= <- <-]. repeat split; intros; try lia; reflexivity.
  - cbn [write_rotation_loop].
    destruct (store offsets v (rot_cursor o)) as [off1| |] eqn:Hso; simpl;
      try discriminate.
    apply store_inv in Hso as [Hin ->].
    destruct (write_arcs fuel s g (gp_GetFirstArc g v) o) as [o1| |] eqn:Hw;
      simpl; try discriminate.
    apply (write_arcs_facts _ _ _ _ _ _ 0) in Hw as (_ & Hcur & _).
    intros Hrun.
    pose proof (write_rotation_loop_buffers _ _ _ _ _ _ _ _ _ 0 Hrun)
      as (_ & Hcur' & _).
    apply IH in Hrun as (Hsame & Hrange & Hmono & _); [|lia].
    replace (Z.to_nat (v + 1)) with (S (Z.to_nat v)) in * by lia.
    assert (Hfirst : offsets' !! Z.to_nat v = Some (rot_cursor o)).
    { rewrite Hsame by lia. apply list_lookup_insert_eq. lia. }
    assert (Hrange' : forall j c, (Z.to_nat v <= j < Z.to_nat v + S k)%nat ->
              offsets' !! j = Some c -> rot_cursor o <= c <= rot_cursor o').
    { intros j c Hj Hc. destruct (decide (j = Z.to_nat v)) as [->|Hne].
      - rewrite Hfirst in Hc. injection Hc as <-. lia.
      - specialize (Hrange j c ltac:(lia) Hc). lia. }
    split; [|split; [exact Hrange'|split; [|intros _; exact Hfirst]]].
    + intros i Hi. rewrite Hsame by lia.
      apply list_lookup_insert_ne. lia.
    + intros j j' c c' Hj Hjj Hj' Hc Hc'.
      destruct (decide (j = Z.to_nat v)) as [->|Hne].
      * rewrite Hfirst in Hc. injection Hc as <-.
        specialize (Hrange' j' c' ltac:(lia) Hc'). lia.
      * apply (Hmono j j' c c'); (lia || assumption).
Qed.

(** X9.  In a session a caller can reach, whenever
    [tl_planarity_write_rotation] returns it has kept the length of the
    three buffers, and every cell of [edgeIds] it has changed holds the
    sentinel [-1] or an edge identity in [[0, m)]. *)
Theorem rotation_edge_ids_valid (fuel : nat) (s : Session)
    (offsets edgeIds neighbors offsets' edgeIds' neighbors' : list Z) :
  reachable s ->
  tl_planarity_write_rotation fuel s offsets edgeIds neighbors
    = Done (offsets', edgeIds', neighbors') ->
  length offsets' = length offsets /\
  length edgeIds' = length edgeIds /\
  length neighbors' = length neighbors /\
  (forall i x, edgeIds' !! i = Some x ->
     edgeIds !! i = Some x \/ x = -1 \/ 0 <= x < g_edgeCount s).
Proof.
  intros Hr. unfold tl_planarity_write_rotation.
  destruct (g_graph s) as [g|]; [|intros [= <- <- <-]; auto].
  destruct (negb (_ =? OK)); [intros [= <- <- <-]; auto|].
  destruct (write_rotation_loop _ _ _ _ _ _ _) as [[off1 o]| |] eqn:Hloop;
    simpl; try discriminate.
  destruct (store off1 _ _) as [off2| |] eqn:Hs; simpl; try discriminate.
  intros [= <- <- <-]. apply store_inv in Hs as [_ ->].
  apply (write_rotation_loop_buffers _ _ _ _ _ _ _ _ _ 0) in Hloop
    as (_ & _ & Hlo & Hle & Hln & Hcells). simpl in *.
  split; [rewrite length_insert; exact Hlo|]. split; [exact Hle|].
  split; [exact Hln|].
  intros i x Hi. destruct (Hcells i x Hi) as [Hold|[a Ha]]; [auto|].
  right. apply (reachable_arc_edge_id s a x Hr Ha).
Qed.

(** X10.  With a graph and the outcome [OK], whenever
    [tl_planarity_write_rotation] returns, [tl_planarity_rotation_size]
    returns on the same fuel, and the value it returns is the one the
    writer has stored in [offsets[n]]: the size a caller asks for is the
    number of cells the writer fills. *)
Theorem rotation_size_last_offset (fuel : nat) (s : Session)
    (offsets edgeIds neighbors offsets' edgeIds' neighbors' : list Z) :
  g_graph s <> None ->
  g_lastEmbedResult s = OK ->
  tl_planarity_write_rotation fuel s offsets edgeIds neighbors
    = Done (offsets', edgeIds', neighbors') ->
  exists t,
    tl_planarity_rotation_size fuel s = Done t /\ 0 <= t /\
    0 <= g_vertexCount s /\
    offsets' !! Z.to_nat (g_vertexCount s) = Some t.
Proof.
  intros Hg Hr. unfold tl_planarity_write_rotation, tl_planarity_rotation_size.
  destruct (g_graph s) as [g|]; [|congruence].
  rewrite Hr, Z.eqb_refl. cbn [negb].
  destruct (write_rotation_loop _ _ _ _ _ _ _) as [[off1 o]| |] eqn:Hloop;
    simpl; try discriminate.
  destruct (store off1 _ _) as [off2| |] eqn:Hs; simpl; try discriminate.
  intros [= <- <- <-]. apply store_inv in Hs as [Hn ->].
  apply (write_rotation_loop_buffers _ _ _ _ _ _ _ _ _ 0) in Hloop
    as (Hsize & Hcur & _). simpl in *.
  exists (rot_cursor o). rewrite Hsize.
  split; [f_equal; lia|]. split; [lia|]. split; [lia|].
  apply list_lookup_insert_eq. lia.
Qed.

(** X11.  With a graph and the outcome [OK], whenever
    [tl_planarity_write_rotation] returns, the offsets it has written
    start at 0 and never decrease over the indices [0, ..., n]: every
    vertex owns the possibly empty slice between its offset and the
    next. *)
Theorem rotation_offsets_nondecreasing (fuel : nat) (s : Session)
    (offsets edgeIds neighbors offsets' edgeIds' neighbors' : list Z) :
  g_graph s <> None ->
  g_lastEmbedResult s = OK ->
  tl_planarity_write_rotation fuel s offsets edgeIds neighbors
    = Done (offsets', edgeIds', neighbors') ->
  offsets' !! 0%nat = Some 0 /\
  (forall j j' c c', (j <= j')%nat -> (j' <= Z.to_nat (g_vertexCount s))%nat ->
     offsets' !! j = Some c -> offsets' !! j' = Some c' -> c <= c').
Proof.
  intros Hg Hr. unfold tl_planarity_write_rotation.
  destruct (g_graph s) as [g|]; [|congruence].
  rewrite Hr, Z.eqb_refl. cbn [negb].
  destruct (write_rotation_loop _ _ _ _ _ _ _) as [[off1 o]| |] eqn:Hloop;
    simpl; try discriminate.
  destruct (store off1 _ _) as [off2| |] eqn:Hs; simpl; try discriminate.
  intros [= <- <- <-]. apply store_inv in Hs as [Hn ->].
  pose proof (write_rotation_loop_buffers _ _ _ _ _ _ _ _ _ 0 Hloop)
    as (_ & Hcur & _).
  pose proof Hloop as Hempty.
  apply write_rotation_loop_offsets in Hloop as (_ & Hrange & Hmono & Hfirst);
    [|lia].
  simpl in Hcur, Hrange, Hmono, Hfirst.
  change (Z.to_nat 0) with 0%nat in *.
  set (n := Z.to_nat (g_vertexCount s)) in *.
  assert (Hlast : <[n := rot_cursor o]> off1 !! n = Some (rot_cursor o))
    by (apply list_lookup_insert_eq; lia).
  split.
  - destruct (decide (n = 0%nat)) as [Hz|Hz].
    + rewrite Hz in *. simpl in Hempty. injection Hempty as _ <-.
      exact Hlast.
    + rewrite list_lookup_insert_ne by lia. apply Hfirst. lia.
  - intros j j' c c' Hjj Hj' Hc Hc'.
    destruct (decide (j' = n)) as [->|Hne'].
    + rewrite Hlast in Hc'. injection Hc' as <-.
      destruct (decide (j = n)) as [->|Hne].
      * rewrite Hlast in Hc. injection Hc as <-. lia.
      * rewrite list_lookup_insert_ne in Hc by lia.
        specialize (Hrange j c ltac:(lia) Hc). lia.
    + rewrite list_lookup_insert_ne in Hc, Hc' by lia.
      apply (Hmono j j' c c'); (lia || assumption).
Qed.

End RotationBuffers.

(** ** What the writers leave alone *)

Section Frames.
Context {L : GraphLib}.

Lemma write_witness_arcs_count (s : Session) (g : graph) (k : nat) (arc : Z)
    (seen seen' : list bool) (cursor cursor' : Z) (buf buf' : list Z)
    (count : Z) :
  write_witness_arcs k arc s g (seen, cursor, buf) = Done (seen', cursor', buf') ->
  count_witness_arcs k arc s g (seen, count)
    = Done (seen', count + (cursor' - cursor)) /\
  cursor <= cursor' /\
  (forall i : nat, Z.of_nat i < cursor \/ cursor' <= Z.of_nat i ->
     buf' !! i = buf !! i).
Proof.
  revert arc seen cursor buf count.
  induction k as [|k IH]; intros arc seen cursor buf count.
  - simpl. intros [= <- <- <-]. split; [do 2 f_equal; lia|]. split; [lia|auto].
  - cbn [write_witness_arcs count_witness_arcs].
    unfold write_witness_arc, count_witness_arc.
    destruct (negb (gp_EdgeInUse g arc)); simpl; [apply IH|].
    destruct (arc_edge_id s arc) as [e| |]; simpl; try discriminate.
    destruct (fresh_edge s seen e); simpl; [|apply IH].
    destruct (store buf cursor e) as [b1| |] eqn:Hs; simpl; try discriminate.
    apply store_inv in Hs as [Hc ->].
    intros Hrun. apply (IH _ _ _ _ (count + 1)) in Hrun as (Hcount & Hcur & Hframe).
    split; [rewrite Hcount; do 2 f_equal; lia|]. split; [lia|].
    intros i Hi. rewrite Hframe by lia. apply list_lookup_insert_ne. lia.
Qed.

(** X12.  Whenever [tl_planarity_write_witness_edges] returns,
    [tl_planarity_witness_edge_count] returns under the same heap, and the
    writer has left every cell of the buffer from index
    [witnessEdgeCount()] on as it was. *)
Theorem witness_edges_write_frame (h : Heap) (s : Session)
    (edgeIds out : list Z) :
  tl_planarity_write_witness_edges h s edgeIds = Done out ->
  exists c,
    tl_planarity_witness_edge_count h s = Done c /\ 0 <= c /\
    (forall i, (Z.to_nat c <= i)%nat -> out !! i = edgeIds !! i).
Proof.
  unfold tl_planarity_write_witness_edges, tl_planarity_witness_edge_count.
  destruct (g_graph s) as [g|]; [|intros [= <-]; exists 0; auto with zarith].
  destruct (negb (_ =? NONEMBEDDABLE));
    [intros [= <-]; exists 0; auto with zarith|].
  destruct (negb (calloc_ok h _)); [intros [= <-]; exists 0; auto with zarith|].
  destruct (write_witness_arcs _ _ s g _) as [[[seen' cursor'] buf']| |] eqn:Hrun;
    simpl; try discriminate.
  intros [= <-].
  apply (write_witness_arcs_count _ _ _ _ _ _ _ _ _ _ 0) in Hrun
    as (Hcount & Hcur & Hframe).
  rewrite Hcount. simpl. exists (cursor' - 0).
  split; [f_equal; lia|]. split; [lia|].
  intros i Hi. apply Hframe. lia.
Qed.

Lemma write_arcs_frame (fuel : nat) (s : Session) (g : graph) (arc : Z)
    (o o' : rot_out) :
  write_arcs fuel s g arc o = Done o' ->
  forall i : nat, Z.of_nat i < rot_cursor o \/ rot_cursor o' <= Z.of_nat i ->
    rot_edgeIds o' !! i = rot_edgeIds o !! i /\
    rot_neighbors o' !! i = rot_neighbors o !! i.
Proof.
  revert arc o. induction fuel as [|fuel IH]; intros arc o; [discriminate|].
  cbn [write_arcs].
  destruct (gp_IsArc arc); [|intros [= <-]; auto].
  destruct (arc_edge_id s arc) as [e| |]; simpl; try discriminate.
  destruct (store (rot_edgeIds o) (rot_cursor o) e) as [eds| |] eqn:Hse;
    simpl; try discriminate.
  destruct (store (rot_neighbors o) (rot_cursor o) (gp_GetNeighbor g arc))
    as [nbs| |] eqn:Hsn; simpl; try discriminate.
  apply store_inv in Hse as [Hce ->]. apply store_inv in Hsn as [Hcn ->].
  intros Hrun i Hi.
  pose proof (write_arcs_facts _ _ _ _ _ _ 0 Hrun) as (_ & Hcur & _).
  simpl in Hcur.
  destruct (IH _ _ Hrun i) as [He Hn]; [simpl; lia|]. simpl in He, Hn.
  rewrite He, Hn. split; apply list_lookup_insert_ne; lia.
Qed.

Lemma write_rotation_loop_frame (fuel : nat) (s : Session) (g : graph)
    (k : nat) (v : Z) (offsets offsets' : list Z) (o o' : rot_out) :
  write_rotation_loop fuel s g k v offsets o = Done (offsets', o') ->
  forall i : nat, Z.of_nat i < rot_cursor o \/ rot_cursor o' <= Z.of_nat i ->
    rot_edgeIds o' !! i = rot_edgeIds o !! i /\
    rot_neighbors o' !! i = rot_neighbors o !! i.
Proof.
  revert v offsets o. induction k as [|k IH]; intros v offsets o.
  - simpl. intros [= <- <-]. auto.
  - cbn [write_rotation_loop].
    destruct (store offsets v (rot_cursor o)) as [off1| |]; simpl;
      try discriminate.
    destruct (write_arcs fuel s g (gp_GetFirstArc g v) o) as [o1| |] eqn:Hw;
      simpl; try discriminate.
    intros Hrun i Hi.
    pose proof (write_arcs_facts _ _ _ _ _ _ 0 Hw) as (_ & Hcur & _).
    pose proof (write_rotation_loop_buffers _ _ _ _ _ _ _ _ _ 0 Hrun)
      as (_ & Hcur' & _).
    destruct (IH _ _ _ Hrun i) as [He Hn]; [lia|].
    destruct (write_arcs_frame _ _ _ _ _ _ Hw i) as [He1 Hn1]; [lia|].
    rewrite He, Hn. auto.
Qed.

(** X13.  Whenever [tl_planarity_write_rotation] returns,
    [tl_planarity_rotation_size] returns on the same fuel, and the writer
    has left as they were every cell of [edgeIds] and [neighbors] from
    index [rotationSize()] on and every cell of [offsets] beyond index
    [n]. *)
Theorem rotation_write_frame (fuel : nat) (s : Session)
    (offsets edgeIds neighbors offsets' edgeIds' neighbors' : list Z) :
  tl_planarity_write_rotation fuel s offsets edgeIds neighbors
    = Done (offsets', edgeIds', neighbors') ->
  exists t,
    tl_planarity_rotation_size fuel s = Done t /\ 0 <= t /\
    (forall i, (Z.to_nat t <= i)%nat ->
       edgeIds' !! i = edgeIds !! i /\ neighbors' !! i = neighbors !! i) /\
    (forall i, (Z.to_nat (g_vertexCount s) < i)%nat ->
       offsets' !! i = offsets !! i).
Proof.
  unfold tl_planarity_write_rotation, tl_planarity_rotation_size.
  destruct (g_graph s) as [g|];
    [|intros [= <- <- <-]; exists 0; auto with zarith].
  destruct (negb (_ =? OK)); [intros [= <- <- <-]; exists 0; auto with zarith|].
  destruct (write_rotation_loop _ _ _ _ _ _ _) as [[off1 o]| |] eqn:Hloop;
    simpl; try discriminate.
  destruct (store off1 _ _) as [off2| |] eqn:Hs; simpl; try discriminate.
  intros [= <- <- <-]. apply store_inv in Hs as [Hn ->].
  pose proof (write_rotation_loop_buffers _ _ _ _ _ _ _ _ _ 0 Hloop)
    as (Hsize & Hcur & _).
  pose proof (write_rotation_loop_frame _ _ _ _ _ _ _ _ _ Hloop) as Hframe.
  apply write_rotation_loop_offsets in Hloop as (Hsame & _); [|lia].
  simpl in *. exists (rot_cursor o). rewrite Hsize.
  split; [f_equal; lia|]. split; [lia|]. split.
  - intros i Hi. apply Hframe. lia.
  - intros i Hi. rewrite list_lookup_insert_ne by lia. apply Hsame.
    change (Z.to_nat 0) with 0%nat. lia.
Qed.

End Frames.

(** ** The further properties on sessions of the list-based store *)

Section CheckedFurther.
Import ListGraph Scenarios.

Ltac by_eval :=
  vm_compute; repeat split;
  first [reflexivity | lia | discriminate | (intros ?; discriminate)].

(** X1, on the rejected complete graph. *)
Lemma reachable_session_invariant_witness :
  0 <= g_vertexCount k5 /\ 0 <= g_edgeCount k5 /\
  (g_graph k5 <> None -> 0 < g_vertexCount k5) /\
  (forall a, g_edgeIdByArc k5 = Some a ->
     g_graph k5 <> None /\ length a = Z.to_nat (g_edgeIdByArcSize k5) /\
     Forall (fun e => e = -1 \/ 0 <= e < g_edgeCount k5) a).
Proof.
  destruct (@reachable_session_invariant k5_lib k5)
    as (Hn & Hm & _ & Hg & Hmap).
  - apply (@reach_run k5_lib), (@reach_init k5_lib).
  - split; [exact Hn|]. split; [exact Hm|]. split; [exact Hg|exact Hmap].
Defined.

(** X3, on the run with an endpoint that is no vertex. *)
Lemma failed_run_extraction_empty_witness :
  @tl_planarity_rotation_size accepting 4 (fst bad_endpoint_run) = Done 0 /\
  @tl_planarity_witness_edge_count accepting plenty (fst bad_endpoint_run)
    = Done 0.
Proof.
  pose proof (@failed_run_extraction_empty accepting 4 plenty plenty 2 1 [0] [7]
                0 initial_session (zeros 3) (zeros 2) (zeros 2) (zeros 2)) as H.
  specialize (H ltac:(by_eval) ltac:(by_eval)). cbv zeta in H.
  specialize (H ltac:(by_eval) ltac:(by_eval)).
  destruct H as (Hrot & _ & Hcount & _). split; [exact Hrot|exact Hcount].
Defined.

(** X4, on the rejected complete graph. *)
Lemma witness_edge_count_bound_witness :
  0 <= 10 <= Z.max 0 (g_edgeCount k5).
Proof.
  apply (@witness_edge_count_bound k5_lib plenty k5 10).
  vm_compute. reflexivity.
Defined.

(** X6, on the triangle with its second edge listed the other way round. *)
Lemma build_arc_map_unordered_witness :
  @build_arc_map accepting triangle_graph 3 [0; 1; 2] [1; 2; 0] 18
    (replicate 18 (-1))
  = @build_arc_map accepting triangle_graph 3 [0; 2; 2] [1; 1; 0] 18
      (replicate 18 (-1)).
Proof.
  apply (@build_arc_map_unordered accepting).
  intros i Hi. assert (i = 0 \/ i = 1 \/ i = 2) as [->|[->| ->]] by lia;
    [left|right|left]; split; reflexivity.
Defined.


(** X8, on the triangle. *)
Lemma arc_map_edge_once_witness :
  exists c, forall x,
    map_lookup 18
      (@build_arc_map accepting triangle_graph 3 [0; 1; 2] [1; 2; 0] 18
         (replicate 18 (-1))) x = 1 ->
    x = c \/ x = Z.lxor c 1.
Proof.
  apply (@arc_map_edge_once accepting triangle_graph 3 [0; 1; 2] [1; 2; 0] 18 1).
  discriminate.
Defined.

(** X9, on the triangle. *)
Lemma rotation_edge_ids_valid_witness :
  length [2; 0; 1; 0; 2; 1] = length (zeros 6) /\
  (forall i x, [2; 0; 1; 0; 2; 1] !! i = Some x ->
     zeros 6 !! i = Some x \/ x = -1 \/ 0 <= x < g_edgeCount triangle).
Proof.
  destruct (@rotation_edge_ids_valid accepting 4 triangle (zeros 4) (zeros 6)
              (zeros 6) [0; 2; 4; 6] [2; 0; 1; 0; 2; 1] [2; 1; 2; 0; 0; 1])
    as (_ & Hlen & _ & Hcells).
  - apply (@reach_run accepting), (@reach_init accepting).
  - vm_compute. reflexivity.
  - split; [exact Hlen|exact Hcells].
Defined.

(** X10, on the triangle. *)
Lemma rotation_size_last_offset_witness :
  exists t,
    @tl_planarity_rotation_size accepting 4 triangle = Done t /\ 0 <= t /\
    0 <= g_vertexCount triangle /\
    [0; 2; 4; 6] !! Z.to_nat (g_vertexCount triangle) = Some t.
Proof.
  apply (@rotation_size_last_offset accepting 4 triangle (zeros 4) (zeros 6)
           (zeros 6) [0; 2; 4; 6] [2; 0; 1; 0; 2; 1] [2; 1; 2; 0; 0; 1]).
  - by_eval.
  - vm_compute. reflexivity.
  - vm_compute. reflexivity.
Defined.

(** X11, on the triangle. *)
Lemma rotation_offsets_nondecreasing_witness :
  [0; 2; 4; 6] !! 0%nat = Some 0 /\
  (forall j j' c c', (j <= j')%nat ->
     (j' <= Z.to_nat (g_vertexCount triangle))%nat ->
     [0; 2; 4; 6] !! j = Some c -> [0; 2; 4; 6] !! j' = Some c' -> c <= c').
Proof.
  apply (@rotation_offsets_nondecreasing accepting 4 triangle (zeros 4) (zeros 6)
           (zeros 6) [0; 2; 4; 6] [2; 0; 1; 0; 2; 1] [2; 1; 2; 0; 0; 1]).
  - by_eval.
  - vm_compute. reflexivity.
  - vm_compute. reflexivity.
Defined.

(** X12, on the rejected complete graph with a buffer of twelve cells. *)
Lemma witness_edges_write_frame_witness :
  exists c,
    @tl_planarity_witness_edge_count k5_lib plenty k5 = Done c /\ 0 <= c /\
    (forall i, (Z.to_nat c <= i)%nat ->
       [0; 1; 2; 3; 4; 5; 6; 7; 8; 9; 0; 0] !! i = zeros 12 !! i).
Proof.
  apply (@witness_edges_write_frame k5_lib plenty k5 (zeros 12)).
  vm_compute. reflexivity.
Defined.

(** X13, on the triangle with buffers larger than needed. *)
Lemma rotation_write_frame_witness :
  exists t,
    @tl_planarity_rotation_size accepting 4 triangle = Done t /\ 0 <= t /\
    (forall i, (Z.to_nat t <= i)%nat ->
       [2; 0; 1; 0; 2; 1; 0; 0] !! i = zeros 8 !! i /\
       [2; 1; 2; 0; 0; 1; 0; 0] !! i = zeros 8 !! i) /\
    (forall i, (Z.to_nat (g_vertexCount triangle) < i)%nat ->
       [0; 2; 4; 6; 0] !! i = zeros 5 !! i).
Proof.
  apply (@rotation_write_frame accepting 4 triangle (zeros 5) (zeros 8) (zeros 8)).
  vm_compute. reflexivity.
Defined.

End CheckedFurther.
